(** * zos command-line tool: parameter, proxy and catalog resolution

    A shallow embedding of [packages/cli/src/utils/prompt.ts] and the
    properties its description states about it.

    The file follows the source top to bottom:
    - [JS]        the JavaScript values and plain objects the code handles;
    - [Outcome]   thrown errors and rejected promises as an error monad;
    - [Prompt]    [promptIfNeeded], [answersFor], [promptFor],
                  [hasEmptyChoices];
    - [Proxy]     [proxyInfo];
    - [Catalog]   [contractsList], [contractMethods], [methodsList],
                  [argsList], [initArgsForPrompt];
    - [Listings]  [networksList], [proxiesList];
    - [UnlinkCommand]  [action] and [setCommandProps] of
                  [packages/cli/src/commands/unlink.ts]. *)

From stdpp Require Import base option list strings gmap sorting.
From Stdlib Require Import ZArith.

(** ** JavaScript values *)

Module JS.

(** The values that flow through the command layer.  A function value is
    opaque here (the code under study only asks whether a value is one);
    functions that the code calls are Rocq functions in the records
    below. *)
#[warnings="-register-all"]
Inductive Value : Type :=
| VUndefined
| VNull
| VBool (b : bool)
| VNum (n : Z)
| VStr (s : string)
| VArr (items : list Value)
| VObj (fields : list (string * Value))
| VFun (tag : string).

(** ToBoolean; arrays, objects and functions are always truthy. *)
Definition truthy (v : Value) : bool :=
  match v with
  | VUndefined | VNull => false
  | VBool b => b
  | VNum n => negb (n =? 0)%Z
  | VStr s => negb (String.eqb s "")
  | VArr _ | VObj _ | VFun _ => true
  end.

(** [a || b] *)
Definition or_else (a b : Value) : Value := if truthy a then a else b.

(** [typeof v] *)
Definition typeof (v : Value) : string :=
  match v with
  | VUndefined => "undefined"
  | VNull => "object"
  | VBool _ => "boolean"
  | VNum _ => "number"
  | VStr _ => "string"
  | VArr _ | VObj _ => "object"
  | VFun _ => "function"
  end.

(** [v === undefined] *)
Definition is_undefined (v : Value) : bool :=
  match v with VUndefined => true | _ => false end.

(** [lodash.isempty]: nullish values, primitives that are not strings
    and functions have no own enumerable properties and count as empty;
    strings and arrays are empty when their length is zero, plain
    objects when they have no own key. *)
Definition isEmpty (v : Value) : bool :=
  match v with
  | VUndefined | VNull => true
  | VBool _ | VNum _ => true
  | VStr s => String.eqb s ""
  | VArr items => match items with [] => true | _ => false end
  | VObj fields => match fields with [] => true | _ => false end
  | VFun _ => true
  end.

(** A plain object: its own enumerable properties in [Object.keys]
    order.  Keys are unique in a well-formed object ([wf]). *)
Definition Obj : Type := list (string * Value).

Definition keys (o : Obj) : list string := map fst o.

Definition wf (o : Obj) : Prop := NoDup (keys o).

(** [o[k]]; a missing property reads as [undefined]. *)
Fixpoint get (o : Obj) (k : string) : Value :=
  match o with
  | [] => VUndefined
  | (k', v) :: o' => if String.eqb k' k then v else get o' k
  end.

(** [o[k] = v]: an existing property keeps its place, a new one is
    added last. *)
Fixpoint set (o : Obj) (k : string) (v : Value) : Obj :=
  match o with
  | [] => [(k, v)]
  | (k', v') :: o' =>
      if String.eqb k' k then (k', v) :: o' else (k', v') :: set o' k v
  end.

(** [{ ...a, ...b }] *)
Definition spread (a b : Obj) : Obj :=
  fold_left (fun acc kv => set acc (fst kv) (snd kv)) b a.

(** [a === b] on primitives.  Arrays, objects and functions compare by
    reference, which this value model does not track: two of them are
    taken to be distinct. *)
Definition strict_eq (a b : Value) : bool :=
  match a, b with
  | VUndefined, VUndefined => true
  | VNull, VNull => true
  | VBool x, VBool y => Bool.eqb x y
  | VNum x, VNum y => (x =? y)%Z
  | VStr x, VStr y => String.eqb x y
  | _, _ => false
  end.

End JS.

Export JS.

(** ** Thrown errors and rejected promises *)

Module Outcome.

Inductive Error : Type :=
| TypeError        (* property read or destructuring of undefined *)
| PromptFailure.   (* the interactive round rejected *)

Inductive Result (A : Type) : Type :=
| Ok (a : A)
| Err (e : Error).
Arguments Ok {A} a.
Arguments Err {A} e.

(** Sequencing: an error ends the computation ([await] of a rejected
    promise, or a throw inside the async function). *)
Definition bind {A B} (r : Result A) (k : A -> Result B) : Result B :=
  match r with
  | Ok a => k a
  | Err e => Err e
  end.

Notation "'do' x <- c ; k" := (bind c (fun x => k))
  (at level 10, x name, c at level 100, k at level 200).

Definition failed {A} (r : Result A) : Prop :=
  match r with Ok _ => False | Err _ => True end.

(** [xs.filter(p)] with a predicate that may throw. *)
Fixpoint filterM {A} (p : A -> Result bool) (xs : list A) : Result (list A) :=
  match xs with
  | [] => Ok []
  | x :: xs' =>
      do keep <- p x;
      do rest <- filterM p xs';
      Ok (if keep then x :: rest else rest)
  end.

(** [xs.map(f)] with a callback that may throw. *)
Fixpoint mapM {A B} (f : A -> Result B) (xs : list A) : Result (list B) :=
  match xs with
  | [] => Ok []
  | x :: xs' =>
      do y <- f x;
      do ys <- mapM f xs';
      Ok (y :: ys)
  end.

End Outcome.

Export Outcome.

(** ** The parameter resolver *)

Module Prompt.

(** One entry of [props]: the inquirer question fields the commands
    declare for a name.  [qs_name] is the entry's own [name] property
    when it has one; the entries built in this file
    ([inquirerQuestion]) have none.  [qs_choices] is a list, a function
    of the earlier answers ([VFun]) or [undefined]. *)
Record QuestionSpec : Type := {
  qs_name : option string;
  qs_type : Value;
  qs_message : Value;
  qs_choices : Value;
  qs_default : Value;
  qs_normalize : option (Value -> Value)
}.

(** What [promptFor] hands to inquirer. *)
Record Question : Type := {
  q_isInquirerQuestion : bool;
  q_name : string;
  q_type : Value;
  q_message : Value;
  q_choices : Value;
  q_default : Value;
  q_normalize : option (Value -> Value)
}.

(** [interface PromptParams]: every member is optional. *)
Record PromptParams : Type := {
  args : option Obj;
  opts : option Obj;
  props : option (gmap string QuestionSpec);
  defaults : option Obj
}.

(** The module-level [export let]. *)
Record ModuleState : Type := { DEFAULT_INTERACTIVE_STATUS : bool }.

Definition initial : ModuleState := {| DEFAULT_INTERACTIVE_STATUS := true |}.

(** The members a plain object inherits from [Object.prototype]. *)
Definition objectPrototypeNames : list string :=
  [ "constructor"; "__defineGetter__"; "__defineSetter__"; "hasOwnProperty";
    "__lookupGetter__"; "__lookupSetter__"; "isPrototypeOf";
    "propertyIsEnumerable"; "toString"; "valueOf"; "__proto__";
    "toLocaleString" ].

Definition inheritedName (name : string) : bool :=
  existsb (String.eqb name) objectPrototypeNames.

(** What a plain object without an entry of its own reads under such a
    name: a function of [Object.prototype] (the prototype itself under
    [__proto__]).  It has no [type], [message], [choices], [default] or
    [normalize], and nothing enumerable of its own for a spread to
    copy. *)
Definition inheritedMember : QuestionSpec :=
  {| qs_name := None;
     qs_type := VUndefined;
     qs_message := VUndefined;
     qs_choices := VUndefined;
     qs_default := VUndefined;
     qs_normalize := None |}.

(** The member itself, as a value: [Object.prototype] under
    [__proto__], a function under the other names. *)
Definition inheritedValue (name : string) : Value :=
  if String.eqb name "__proto__" then VObj [] else VFun name.

(** [defaults[name]], with [defaults] a plain object and [name] any
    string: a value of its own is read first, then the member inherited
    under the name. *)
Definition default_read (defaults : Obj) (name : string) : Value :=
  if inheritedName name && negb (existsb (String.eqb name) (keys defaults))
  then inheritedValue name
  else get defaults name.

(** [props[name]], with [props] a plain object: reading a member of an
    omitted [props] throws; an entry of its own is read first, then the
    member inherited under the name; a name with neither reads as
    [undefined] ([None]). *)
Definition prop_read (props : option (gmap string QuestionSpec)) (name : string)
  : Result (option QuestionSpec) :=
  match props with
  | None => Err TypeError
  | Some p =>
      Ok match p !! name with
         | Some s => Some s
         | None => if inheritedName name then Some inheritedMember else None
         end
  end.

(** [function hasEmptyChoices({ choices })]: destructuring [undefined]
    throws. *)
Definition hasEmptyChoices (spec : option QuestionSpec) : Result bool :=
  match spec with
  | None => Err TypeError
  | Some s =>
      let choices := qs_choices s in
      Ok (truthy choices && isEmpty choices
          && negb (String.eqb (typeof choices) "function"))
  end.

(** [function promptFor(name, defaults, props)].  The entry is spread
    after [name], so an entry with a [name] of its own replaces it;
    spreading [undefined] adds nothing, and [props[name].default] is
    only read when [defaultValue] is falsy.  [defaults[name]] is the
    read of a plain object under any name ([default_read]). *)
Definition promptFor (name : string) (defaults : option Obj)
    (props : option (gmap string QuestionSpec)) : Result Question :=
  let defaultValue :=
    match defaults with Some d => default_read d name | None => VUndefined end in
  do spec <- prop_read props name;
  do fallback <-
    (if truthy defaultValue then Ok defaultValue
     else match spec with
          | Some s => Ok (qs_default s)
          | None => Err TypeError
          end);
  Ok match spec with
     | Some s =>
         {| q_isInquirerQuestion := true;
            q_name := default name (qs_name s);
            q_type := qs_type s;
            q_message := qs_message s;
            q_choices := qs_choices s;
            q_default := fallback;
            q_normalize := qs_normalize s |}
     | None =>
         {| q_isInquirerQuestion := true;
            q_name := name;
            q_type := VUndefined;
            q_message := VUndefined;
            q_choices := VUndefined;
            q_default := fallback;
            q_normalize := None |}
     end.

(** The second [.filter] of both chains:
    [name => !hasEmptyChoices(props[name])]. *)
Definition hasChoicesToOffer (props : option (gmap string QuestionSpec))
    (name : string) : Result bool :=
  do spec <- prop_read props name;
  do empty <- hasEmptyChoices spec;
  Ok (negb empty).

(** [Object.keys(args).filter(..).filter(..)]: the names left to ask. *)
Definition argsPending (args : Obj)
    (props : option (gmap string QuestionSpec)) : Result (list string) :=
  filterM (hasChoicesToOffer props)
    (List.filter
       (fun argName => is_undefined (get args argName) || isEmpty (get args argName))
       (keys args)).

Definition optsPending (opts : Obj)
    (props : option (gmap string QuestionSpec)) : Result (list string) :=
  filterM (hasChoicesToOffer props)
    (List.filter (fun optName => is_undefined (get opts optName)) (keys opts)).

(** [const argsQuestions] and [const optsQuestions]. *)
Definition argsQuestions (args : Obj) (defaults : option Obj)
    (props : option (gmap string QuestionSpec)) : Result (list Question) :=
  do pending <- argsPending args props;
  mapM (fun argName => promptFor argName defaults props) pending.

Definition optsQuestions (opts : Obj) (defaults : option Obj)
    (props : option (gmap string QuestionSpec)) : Result (list Question) :=
  do pending <- optsPending opts props;
  mapM (fun optName => promptFor optName defaults props) pending.

(** The [forEach] of [answersFor] over the keys of [merged], taken once
    before the loop. *)
Fixpoint normalizeEach (props : option (gmap string QuestionSpec))
    (propNames : list string) (merged : Obj) : Result Obj :=
  match propNames with
  | [] => Ok merged
  | propName :: rest =>
      do spec <- prop_read props propName;
      match spec with
      | None => Err TypeError
      | Some s =>
          normalizeEach props rest
            match qs_normalize s with
            | Some normalize => set merged propName (normalize (get merged propName))
            | None => merged
            end
      end
  end.

Section WithInquirer.

(** [inquirer.prompt]: one batched round over the questions; the
    promise resolves to the answers object or rejects. *)
Variable prompt : list Question -> Result Obj.

(** [async function answersFor(inputs, questions, props, interactive)] *)
Definition answersFor (inputs : Obj) (questions : list Question)
    (props : option (gmap string QuestionSpec)) (interactive : bool)
  : Result Obj :=
  do merged <-
    (if interactive
     then do answers <- prompt questions; Ok (spread inputs answers)
     else Ok inputs);
  normalizeEach props (keys merged) merged.

(** [export async function promptIfNeeded({ args = {}, opts = {},
    defaults, props }, interactive?)].  [args] and [opts] are two
    objects; the in-place update of [inputs] that the non-interactive
    branch of [answersFor] performs on the caller's object is not
    observed by the returned value. *)
Definition promptIfNeeded (st : ModuleState) (params : PromptParams)
    (interactive : option bool) : Result Obj :=
  let args := default [] (args params) in
  let opts := default [] (opts params) in
  let defaults := defaults params in
  let props := props params in
  let interactive :=
    match interactive with
    | None => DEFAULT_INTERACTIVE_STATUS st
    | Some b => b
    end in
  do argsQuestions <- argsQuestions args defaults props;
  do optsQuestions <- optsQuestions opts defaults props;
  do fromArgs <- answersFor args argsQuestions props interactive;
  do fromOpts <- answersFor opts optsQuestions props interactive;
  Ok (spread fromArgs fromOpts).

End WithInquirer.

(** *** Vocabulary of the statements about the resolver *)

(** The entry [props] holds for a name, if [props] is there and has
    one of its own. *)
Definition entry (props : option (gmap string QuestionSpec)) (name : string)
  : option QuestionSpec :=
  match props with
  | Some p => p !! name
  | None => None
  end.

(** [props] has an entry for each of the names. *)
Definition covers (props : option (gmap string QuestionSpec))
    (names : list string) : Prop :=
  Forall (fun name => is_Some (entry props name)) names.

(** [props[name]] throws or reads [undefined]: [props] is omitted, or
    it has no entry for the name and inherits no member under it. *)
Definition unset (props : option (gmap string QuestionSpec)) (name : string)
  : Prop :=
  entry props name = None ∧ (props = None ∨ inheritedName name = false).

(** None of the names declares a [normalize]. *)
Definition noNormalize (props : option (gmap string QuestionSpec))
    (names : list string) : Prop :=
  Forall (fun name =>
            match entry props name with
            | Some s => qs_normalize s = None
            | None => True
            end) names.

(** Every question built for one of the names is asked under that
    name: the name's entry has no other [name] of its own. *)
Definition askedByKey (props : option (gmap string QuestionSpec))
    (names : list string) : Prop :=
  Forall (fun name =>
            match entry props name with
            | Some s => default name (qs_name s) = name
            | None => True
            end) names.

(** A value after the [normalize] its name declares, if it declares
    one. *)
Definition normalizeOf (props : option (gmap string QuestionSpec))
    (name : string) (v : Value) : Value :=
  match entry props name with
  | Some s =>
      match qs_normalize s with
      | Some normalize => normalize v
      | None => v
      end
  | None => v
  end.

(** An object with every value normalized under its own name. *)
Definition normalized (props : option (gmap string QuestionSpec)) (o : Obj) : Obj :=
  map (fun kv => (kv.1, normalizeOf props kv.1 kv.2)) o.

(** The interface of the input primitive: the answers it resolves to
    are keyed by names of the questions it was given. *)
Definition answersItsQuestions (prompt : list Question -> Result Obj) : Prop :=
  forall questions answers,
    prompt questions = Ok answers ->
    Forall (fun k => k ∈ map q_name questions) (keys answers).

(** *** Sample collaborators *)

(** A user who gives the same answer to every question. *)
Definition answerAll (v : Value) (questions : list Question) : Result Obj :=
  Ok (fold_left (fun answers q => set answers (q_name q) v) questions []).

(** A user who accepts every default. *)
Definition acceptDefaults (questions : list Question) : Result Obj :=
  Ok (fold_left (fun answers q => set answers (q_name q) (q_default q)) questions []).

(** The rounds of the input primitive always resolve (a user is there
    to answer). *)
Definition resolves (prompt : list Question -> Result Obj) : Prop :=
  forall questions, exists answers, prompt questions = Ok answers.

(** A [normalize] that fills in a missing value. *)
Definition orEverything (v : Value) : Value := or_else v (VStr "everything").

(** An input stream that is closed. *)
Definition closedInput (questions : list Question) : Result Obj :=
  Err PromptFailure.

(** The entry [unlink] declares for its one argument
    ([setCommandProps] of [commands/unlink.ts]). *)
Definition unlinkProps (depNames : list string) : gmap string QuestionSpec :=
  {[ "dependencies" :=
       {| qs_name := None;
          qs_type := VStr "checkbox";
          qs_message := VStr "Select the dependencies you want to unlink";
          qs_choices := VArr (map VStr depNames);
          qs_default := VUndefined;
          qs_normalize := None |} ]}.

(** The call [unlink] makes: [promptIfNeeded({ args, props }, interactive)]. *)
Definition unlinkParams (dependencies : Value) (depNames : list string) : PromptParams :=
  {| args := Some [("dependencies", dependencies)];
     opts := None;
     props := Some (unlinkProps depNames);
     defaults := None |}.

End Prompt.


(** ** The proxy resolver *)

Module Proxy.

(** An entry of a network file: [{ package, contract, address }].  The
    fields are strings; the [{}] that [proxyInfo] falls back on has all
    three [undefined]. *)
Record ProxyRecord : Type := {
  package : Value;
  contract : Value;
  address : Value
}.

Definition noProxy : ProxyRecord :=
  {| package := VUndefined; contract := VUndefined; address := VUndefined |}.

(** The argument of [proxyInfo]. *)
Record ContractInfo : Type := {
  contractAlias : Value;
  proxyAddress : Value;
  packageName : Value
}.

Section WithProject.

(** [new ZosPackageFile().name] and, per network, the proxies its
    network file records, in file order. *)
Variable projectName : string.
Variable networkProxies : string -> list ProxyRecord.

(** Modelled from the spec: [toContractFullName] of [utils/naming],
    which is not part of the sources at hand.  A contract full name is
    "serialized as package/alias when the package differs from the
    local project, or bare alias otherwise"; the package is optional.
    The spec requires an alias: a value that is not a string is handed
    back as it is. *)
Definition toContractFullName (packageName contractName : Value) : Value :=
  match contractName with
  | VStr alias =>
      match packageName with
      | VStr pkg =>
          if String.eqb pkg projectName then VStr alias
          else VStr (pkg +:+ "/" +:+ alias)
      | _ => VStr alias
      end
  | _ => contractName
  end.

(** Modelled from the spec: the test a ProxyQuery applies to one
    record ([ZosNetworkFile] is not part of the sources at hand).  The
    query is "a partial filter {contract?, address?, package?}"; a
    field that is not given (falsy, as in [proxyInfo]'s own test)
    constrains nothing, so "an empty query matches all records". *)
Definition matchesQuery (query proxy : ProxyRecord) : bool :=
  (negb (truthy (package query)) || strict_eq (package proxy) (package query))
  && (negb (truthy (contract query)) || strict_eq (contract proxy) (contract query))
  && (negb (truthy (address query)) || strict_eq (address proxy) (address query)).

(** Modelled from the spec: [networkFile.getProxies(query)], the
    records of the network that match, in record order. *)
Definition getProxies (network : string) (query : ProxyRecord) : list ProxyRecord :=
  List.filter (matchesQuery query) (networkProxies network).

(** Modelled from the spec: [networkFile.hasProxies(query)], whether
    some record matches. *)
Definition hasProxies (network : string) (query : ProxyRecord) : bool :=
  match getProxies network query with
  | [] => false
  | _ :: _ => true
  end.

(** [export function proxyInfo(contractInfo, network)] *)
Definition proxyInfo (contractInfo : ContractInfo) (network : string) : Obj :=
  let contractAlias := contractAlias contractInfo in
  let proxyAddress := proxyAddress contractInfo in
  let packageName := packageName contractInfo in
  let proxyParams :=
    {| contract := contractAlias; address := proxyAddress; package := packageName |} in
  if negb (truthy proxyAddress) && negb (truthy contractAlias) then
    [("proxyReference", VUndefined); ("contractFullName", VUndefined)]
  else if negb (hasProxies network proxyParams) then
    let contractFullName := toContractFullName packageName contractAlias in
    [("proxyReference", or_else proxyAddress contractFullName);
     ("contractFullName", contractFullName)]
  else
    let proxies := getProxies network proxyParams in
    let proxy := match proxies with p :: _ => p | [] => noProxy end in
    let contractFullName := toContractFullName (package proxy) (contract proxy) in
    [("contractFullName", contractFullName);
     ("address", address proxy);
     ("proxyReference", or_else proxyAddress contractFullName)].

End WithProject.

End Proxy.

(** ** The contract and method catalog *)

Module Catalog.

Import Prompt.

(** [new inquirer.Separator(line)], as the choice list carries it. *)
Definition Separator (line : string) : Value :=
  VObj [("type", VStr "separator"); ("line", VStr line)].

(** [function inquirerQuestion(name, message, type, choices?)]:
    [{ [name]: { type, message, choices } }]. *)
Definition inquirerQuestion (name message type : string) (choices : Value)
  : gmap string QuestionSpec :=
  {[ name := {| qs_name := None;
                qs_type := VStr type;
                qs_message := VStr message;
                qs_choices := choices;
                qs_default := VUndefined;
                qs_normalize := None |} ]}.

(** [contractsList] returns a question, or the array literal [[]] of its
    last branch. *)
Inductive Listing : Type :=
| Questions (q : gmap string QuestionSpec)
| EmptyArray.

(** The choice list a listing carries under [name]. *)
Definition choicesOf (name : string) (l : Listing) : list Value :=
  match l with
  | Questions q =>
      match qs_choices <$> q !! name with
      | Some (VArr items) => items
      | _ => []
      end
  | EmptyArray => []
  end.

(** One parameter of a method, [{ name, type }]. *)
Record Input : Type := { i_name : string; i_type : string }.

(** What [methodsFromAst] yields per method. *)
Record Method : Type := {
  m_name : string;
  m_selector : option string;
  m_inputs : list Input;
  m_hasInitializer : bool
}.

(** A choice of [methodsList]: [{ name: label, value: { name, selector } }]. *)
Record MethodChoice : Type := {
  mc_label : string;
  mc_name : string;
  mc_selector : option string
}.

Section WithProject.

(** What the collaborators outside this file answer:
    [Truffle.getContractNames()], the manifest's
    [contractNamesAndAliases] (name, alias) and the keys of its
    [dependencies], [new Dependency(d).getPackageFile().contractAliases],
    [fromContractFullName] (contract, package), and the local
    controller's [hasContract] and
    [getContractClass(..).methodsFromAst()]. *)
Variable getContractNames : list string.
Variable contractNamesAndAliases : list (string * string).
Variable dependencies : list string.
Variable contractAliases : string -> list string.
Variable fromContractFullName : string -> Value * Value.
Variable hasContract : Value -> Value -> bool.
Variable methodsFromAst : Value -> Value -> list Method.

(** [export function contractsList(name, message, type, source?)] *)
Definition contractsList (name message type : string) (source : option string)
  : Listing :=
  let contractsFromBuild := map VStr getContractNames in
  let source := default "" source in
  if String.eqb source "" || String.eqb source "fromBuildDir" then
    Questions (inquirerQuestion name message type (VArr contractsFromBuild))
  else if String.eqb source "fromLocal" then
    let contractsFromLocal :=
      map (fun '(contractName, alias) =>
             let label :=
               if String.eqb contractName alias then alias
               else alias +:+ "[" +:+ contractName +:+ "]" in
             VObj [("name", VStr label); ("value", VStr alias)])
          contractNamesAndAliases in
    Questions (inquirerQuestion name message type (VArr contractsFromLocal))
  else if String.eqb source "all" then
    let packageContracts :=
      map (fun dependencyName =>
             let contractNames :=
               map (fun contractName => VStr (dependencyName +:+ "/" +:+ contractName))
                   (contractAliases dependencyName) in
             if (0 <? length contractNames)%nat
             then Separator (" = " +:+ dependencyName +:+ " =") :: contractNames
             else contractNames)
          dependencies in
    let contractsFromBuild :=
      if (0 <? length contractsFromBuild)%nat
      then Separator " = Local contracts =" :: contractsFromBuild
      else contractsFromBuild in
    Questions (inquirerQuestion name message type
                 (VArr (contractsFromBuild ++ concat packageContracts)))
  else EmptyArray.

(** [export function contractMethods(contractFullName)] *)
Definition contractMethods (contractFullName : string) : list Method :=
  let '(contractAlias, packageName) := fromContractFullName contractFullName in
  if negb (hasContract packageName contractAlias) then []
  else methodsFromAst packageName contractAlias.

(** [export function methodsList(contractFullName)] *)
Definition methodsList (contractFullName : string) : list MethodChoice :=
  map (fun m =>
         let initializable := if m_hasInitializer m then "[Initializable] " else "" in
         let args := map (fun i => i_name i +:+ ": " +:+ i_type i) (m_inputs m) in
         let label :=
           initializable +:+ m_name m +:+ "(" +:+ String.concat ", " args +:+ ")" in
         {| mc_label := label; mc_name := m_name m; mc_selector := m_selector m |})
      (contractMethods contractFullName).

(** The callback of [.find] in [argsList] and [initArgsForPrompt]:
    [selector === methodIdentifier || name === methodIdentifier]. *)
Definition identifies (methodIdentifier : string) (m : Method) : bool :=
  match m_selector m with
  | Some selector => String.eqb selector methodIdentifier
  | None => false
  end
  || String.eqb (m_name m) methodIdentifier.

(** [export function argsList(contractFullName, methodIdentifier)] *)
Definition argsList (contractFullName methodIdentifier : string) : list string :=
  match List.find (identifies methodIdentifier) (contractMethods contractFullName) with
  | Some method => map i_name (m_inputs method)
  | None => []
  end.

(** [export function initArgsForPrompt(contractFullName, methodIdentifier)] *)
Definition initArgsForPrompt (contractFullName methodIdentifier : string) : Obj :=
  match List.find (identifies methodIdentifier) (contractMethods contractFullName) with
  | Some method =>
      fold_left (fun accum current => spread accum current)
        (map (fun i => [(i_name i, VUndefined)]) (m_inputs method)) []
  | None => []
  end.

End WithProject.

(** *** Vocabulary of the statements about the catalog *)

(** The lookup as the description words it, in two passes: "by
    selector first, then by name". *)
Definition findBySelectorThenName (methodIdentifier : string)
    (methods : list Method) : option Method :=
  match List.find (fun m => match m_selector m with
                            | Some selector => String.eqb selector methodIdentifier
                            | None => false
                            end) methods with
  | Some m => Some m
  | None => List.find (fun m => String.eqb (m_name m) methodIdentifier) methods
  end.

(** The section of the local project in the listing of every contract. *)
Definition localSection (built : list string) : list Value :=
  match built with
  | [] => []
  | _ :: _ => Separator " = Local contracts =" :: map VStr built
  end.

(** The section of one dependency in the listing of every contract. *)
Definition dependencySection (dependencyName : string) (aliases : list string)
  : list Value :=
  match aliases with
  | [] => []
  | _ :: _ =>
      Separator (" = " +:+ dependencyName +:+ " =")
      :: map (fun alias => VStr (dependencyName +:+ "/" +:+ alias)) aliases
  end.

(** *** Sample collaborators *)

(** [initialize(uint256 amount)], marked as an initializer. *)
Definition initializeMethod : Method :=
  {| m_name := "initialize";
     m_selector := Some "initialize(uint256)";
     m_inputs := [ {| i_name := "amount"; i_type := "uint256" |} ];
     m_hasInitializer := true |}.

(** [transfer(address to, uint256 value)]. *)
Definition transferMethod : Method :=
  {| m_name := "transfer";
     m_selector := Some "transfer(address,uint256)";
     m_inputs := [ {| i_name := "to"; i_type := "address" |};
                   {| i_name := "value"; i_type := "uint256" |} ];
     m_hasInitializer := false |}.

(** A full name split at its last slash would be the real
    [fromContractFullName]; for the samples every name is a bare
    alias of the local project. *)
Definition bareAlias (contractFullName : string) : Value * Value :=
  (VStr contractFullName, VUndefined).

(** A project whose only contract is [Token]. *)
Definition onlyToken (packageName contractAlias : Value) : bool :=
  strict_eq contractAlias (VStr "Token").

Definition tokenMethods (packageName contractAlias : Value) : list Method :=
  [transferMethod; initializeMethod].

End Catalog.

(** ** The names a batch asks about *)

Module Asking.

Import Prompt.

(** The second filter as a plain test, for a name that has an entry. *)
Definition offers (props : option (gmap string QuestionSpec)) (name : string) : bool :=
  match entry props name with
  | Some s =>
      negb (truthy (qs_choices s) && isEmpty (qs_choices s)
            && negb (String.eqb (typeof (qs_choices s)) "function"))
  | None => true
  end.

(** The names of [args] both filters let through, in key order. *)
Definition argsToAsk (args : Obj) (props : option (gmap string QuestionSpec))
  : list string :=
  List.filter
    (fun name => (is_undefined (get args name) || isEmpty (get args name))
                 && offers props name)
    (keys args).

(** The names of [opts] both filters let through, in key order. *)
Definition optsToAsk (opts : Obj) (props : option (gmap string QuestionSpec))
  : list string :=
  List.filter (fun name => is_undefined (get opts name) && offers props name)
              (keys opts).

(** The default a question is asked with:
    [defaultValue || props[name].default], where [defaultValue] is
    [defaults ? defaults[name] : undefined]. *)
Definition defaultFor (defaults : option Obj) (s : QuestionSpec) (name : string)
  : Value :=
  or_else (match defaults with Some d => default_read d name | None => VUndefined end)
          (qs_default s).

(** What [promptFor] builds for a name out of its entry. *)
Definition builtFrom (defaults : option Obj)
    (props : option (gmap string QuestionSpec)) (name : string) (q : Question)
  : Prop :=
  exists s, entry props name = Some s
            /\ q_name q = default name (qs_name s)
            /\ q_type q = qs_type s
            /\ q_message q = qs_message s
            /\ q_choices q = qs_choices s
            /\ q_default q = defaultFor defaults s name.

End Asking.

(** ** The network and proxy listings *)

Module Listings.

Import Prompt Catalog.

(** A proxy as a network file stores it: three strings. *)
Record StoredProxy : Type := {
  sp_package : string;
  sp_contract : string;
  sp_address : string
}.

(** A choice of [proxiesList]:
    [{ name, value: { address, contractFullName, proxyReference } }]. *)
Record ProxyChoice : Type := {
  pc_name : string;
  pc_address : string;
  pc_contractFullName : string;
  pc_proxyReference : string
}.

(** What [proxiesList] lists: [inquirer.Separator]s and choices. *)
Inductive Entry : Type :=
| Divider (line : string)
| Pick (choice : ProxyChoice).

(** The value of a decimal digit. *)
Definition digit (c : Ascii.ascii) : option N :=
  let n := Ascii.N_of_ascii c in
  if (48 <=? n)%N && (n <=? 57)%N then Some (n - 48)%N else None.

Fixpoint digits (acc : N) (s : string) : option N :=
  match s with
  | EmptyString => Some acc
  | String c rest =>
      match digit c with
      | Some d => digits (acc * 10 + d)%N rest
      | None => None
      end
  end.

(** A property key is an array index when it is the canonical decimal
    writing of an integer below 2^32 - 1. *)
Definition arrayIndex (key : string) : option N :=
  match key with
  | EmptyString => None
  | String c rest =>
      if (48 =? Ascii.N_of_ascii c)%N && negb (String.eqb rest "") then None
      else match digits 0 key with
           | Some n => if (n <? 4294967295)%N then Some n else None
           | None => None
           end
  end.

Definition isArrayIndex (key : string) : bool :=
  match arrayIndex key with Some _ => true | None => false end.

Definition indexLe (a b : string) : Prop :=
  (default 0 (arrayIndex a) <= default 0 (arrayIndex b))%N.

#[export] Instance indexLe_dec a b : Decision (indexLe a b).
Proof. unfold indexLe. apply _. Defined.

(** [Object.keys] of an object whose keys were created in the given
    order: the array indices first, ascending, then the other keys as
    created. *)
Definition ownKeys (created : list string) : list string :=
  merge_sort indexLe (List.filter isArrayIndex created)
  ++ List.filter (fun key => negb (isArrayIndex key)) created.

(** The distinct strings of a list, each at its first occurrence. *)
Fixpoint firstSeen (seen : list string) (xs : list string) : list string :=
  match xs with
  | [] => []
  | x :: rest =>
      if bool_decide (x ∈ seen) then firstSeen seen rest
      else x :: firstSeen (x :: seen) rest
  end.

(** [Object.keys(lodash.groupby(proxies, 'package'))]: a key is created
    when its first proxy is met. *)
Definition groupKeys (proxies : list StoredProxy) : list string :=
  ownKeys (firstSeen [] (map sp_package proxies)).

(** [groupedByPackage[packageName]]: the proxies of the package, in
    order. *)
Definition groupOf (packageName : string) (proxies : list StoredProxy)
  : list StoredProxy :=
  List.filter (fun proxy => String.eqb (sp_package proxy) packageName) proxies.

(** [lodash.uniqby(choices, 'name')]: the first choice of each name, in
    order. *)
Fixpoint uniqByName (seen : list string) (choices : list ProxyChoice)
  : list ProxyChoice :=
  match choices with
  | [] => []
  | c :: rest =>
      if bool_decide (pc_name c ∈ seen) then uniqByName seen rest
      else c :: uniqByName (pc_name c :: seen) rest
  end.

Section WithProject.

(** [new ZosPackageFile().name], [Truffle.getNetworkNamesFromConfig()]
    and, per network, what [networkFile.getProxies()] yields. *)
Variable projectName : string.
Variable getNetworkNamesFromConfig : list string.
Variable storedProxies : string -> list StoredProxy.

(** [export function networksList(type)] *)
Definition networksList (type : string) : gmap string QuestionSpec :=
  let networks := map VStr getNetworkNamesFromConfig in
  inquirerQuestion "network" "Select a network from the network list" type
    (VArr networks).

(** The callback [({ contract, address }) => ...] of [proxiesList]. *)
Definition proxyChoice (byAddress : bool) (packageName : string)
    (proxy : StoredProxy) : ProxyChoice :=
  let contract := sp_contract proxy in
  let address := sp_address proxy in
  let name := if byAddress then contract +:+ " at " +:+ address else contract in
  let contractFullName :=
    if String.eqb packageName projectName then contract
    else packageName +:+ "/" +:+ contract in
  let proxyReference := if byAddress then address else contractFullName in
  {| pc_name := name;
     pc_address := address;
     pc_contractFullName := contractFullName;
     pc_proxyReference := proxyReference |}.

(** The callback [packageName => ...] of [proxiesList]: the separator of
    a package and its choices. *)
Definition packageSection (byAddress : bool) (proxies : list StoredProxy)
    (packageName : string) : list Entry :=
  let separator :=
    if String.eqb packageName projectName then "Local contracts" else packageName in
  let packageList := map (proxyChoice byAddress packageName) (groupOf packageName proxies) in
  Divider (" = " +:+ separator +:+ " =") :: map Pick (uniqByName [] packageList).

(** [export function proxiesList(network)]: the function of the earlier
    answers it returns. *)
Definition proxiesList (network : string) (answer : Obj) : list Entry :=
  let proxies := storedProxies network in
  let byAddress := strict_eq (get answer "pickProxyBy") (VStr "byAddress") in
  concat (map (packageSection byAddress proxies) (groupKeys proxies)).

End WithProject.

(** *** Vocabulary of the statements about the listings *)

(** The name a proxy is listed under. *)
Definition displayName (byAddress : bool) (proxy : StoredProxy) : string :=
  if byAddress then sp_contract proxy +:+ " at " +:+ sp_address proxy
  else sp_contract proxy.

(** The separator line of a package. *)
Definition dividerLine (projectName packageName : string) : string :=
  " = "
  +:+ (if String.eqb packageName projectName then "Local contracts" else packageName)
  +:+ " =".

(** The separator lines of a listing, in order. *)
Definition dividers (entries : list Entry) : list string :=
  omap (fun e => match e with Divider line => Some line | Pick _ => None end) entries.

(** The choices of a list that are contract names, separators left out. *)
Definition selectable (choices : list Value) : list Value :=
  List.filter (fun c => match c with VStr _ => true | _ => false end) choices.

(** A property of a choice object. *)
Definition field (key : string) (choice : Value) : Value :=
  match choice with
  | VObj fields => get fields key
  | _ => VUndefined
  end.

(** The question [networksList] leads to for an undefined [network]. *)
Definition networkQuestion (networks : list string) (type : string)
    (defaults : option Obj) : Question :=
  {| q_isInquirerQuestion := true;
     q_name := "network";
     q_type := VStr type;
     q_message := VStr "Select a network from the network list";
     q_choices := VArr (map VStr networks);
     q_default :=
       or_else (match defaults with Some d => get d "network" | None => VUndefined end)
               VUndefined;
     q_normalize := None |}.

(** *** Sample collaborators *)

Definition sampleProxies (network : string) : list StoredProxy :=
  [ {| sp_package := "lib"; sp_contract := "Vault"; sp_address := "0x01" |};
    {| sp_package := "app"; sp_contract := "Token"; sp_address := "0x02" |};
    {| sp_package := "lib"; sp_contract := "Vault"; sp_address := "0x03" |} ].

End Listings.

(** ** The [unlink] command *)

Module UnlinkCommand.

Import Prompt.

(** [function setCommandProps(depNames)] of [commands/unlink.ts]. *)
Definition setCommandProps (depNames : list string) : gmap string QuestionSpec :=
  {[ "dependencies" :=
       {| qs_name := None;
          qs_type := VStr "checkbox";
          qs_message := VStr "Select the dependencies you want to unlink";
          qs_choices := VArr (map VStr depNames);
          qs_default := VUndefined;
          qs_normalize := None |} ]}.

(** How [promptIfNeeded] takes an [interactive] that comes out of an
    options object: [undefined] is the omitted argument, any other value
    counts for its truthiness. *)
Definition asInteractive (v : Value) : option bool :=
  match v with
  | VUndefined => None
  | _ => Some (truthy v)
  end.

Section WithScripts.

(** [inquirer.prompt], [ZosPackageFile.getLinkedDependencies()], the
    [unlink] script and [push.tryAction]. *)
Variable prompt : list Question -> Result Obj.
Variable getLinkedDependencies : list string.
Variable unlink : Obj -> Result unit.
Variable tryAction : Obj -> Result unit.

(** [async function action(dependencies, options)] *)
Definition action (st : ModuleState) (dependencies : Value) (options : Obj)
  : Result unit :=
  let interactive := get options "interactive" in
  let installedDependencies := getLinkedDependencies in
  let args := [("dependencies", dependencies)] in
  let props := setCommandProps installedDependencies in
  do prompted <-
    promptIfNeeded prompt st
      {| args := Some args; opts := None; props := Some props; defaults := None |}
      (asInteractive interactive);
  do _ <- unlink prompted;
  tryAction options.

End WithScripts.

(** *** Vocabulary of the statements about the command *)

(** Whether the call [action] makes is an interactive one. *)
Definition interactiveMode (st : ModuleState) (options : Obj) : bool :=
  match asInteractive (get options "interactive") with
  | None => DEFAULT_INTERACTIVE_STATUS st
  | Some b => b
  end.

(** The question about the dependencies to unlink. *)
Definition dependenciesQuestion (depNames : list string) : Question :=
  {| q_isInquirerQuestion := true;
     q_name := "dependencies";
     q_type := VStr "checkbox";
     q_message := VStr "Select the dependencies you want to unlink";
     q_choices := VArr (map VStr depNames);
     q_default := VUndefined;
     q_normalize := None |}.

(** *** Sample collaborators *)

(** A script that goes through. *)
Definition succeed (input : Obj) : Result unit := Ok tt.

End UnlinkCommand.

(** * Properties *)

(** ** Plain objects *)

Section ObjFacts.

Implicit Types (o a b : Obj) (k : string) (v : Value).

Lemma eqb_refl_s k : String.eqb k k = true.
Proof. apply String.eqb_refl. Qed.

Lemma get_set o k v k' :
  get (set o k v) k' = if String.eqb k k' then v else get o k'.
Proof.
  induction o as [|[k0 v0] o IH]; simpl.
  - destruct (String.eqb_spec k k'); reflexivity.
  - destruct (String.eqb_spec k0 k) as [->|Hne]; simpl.
    + destruct (String.eqb_spec k k'); reflexivity.
    + rewrite IH. destruct (String.eqb_spec k0 k') as [->|]; [|reflexivity].
      destruct (String.eqb_spec k k'); congruence.
Qed.

Lemma get_set_eq o k v : get (set o k v) k = v.
Proof. by rewrite get_set, eqb_refl_s. Qed.

Lemma get_set_ne o k v k' : k ≠ k' → get (set o k v) k' = get o k'.
Proof. intros H. rewrite get_set. by destruct (String.eqb_spec k k'). Qed.

Lemma get_notin o k : k ∉ keys o → get o k = VUndefined.
Proof.
  induction o as [|[k0 v0] o IH]; simpl; [done|].
  rewrite not_elem_of_cons. intros [Hne Hnin].
  destruct (String.eqb_spec k0 k); [congruence | auto].
Qed.

Lemma elem_of_keys_set o k v k' :
  k' ∈ keys (set o k v) ↔ k' = k ∨ k' ∈ keys o.
Proof.
  induction o as [|[k0 v0] o IH]; simpl.
  - rewrite list_elem_of_singleton, elem_of_nil. tauto.
  - destruct (String.eqb_spec k0 k) as [->|Hne]; simpl.
    + rewrite !elem_of_cons. tauto.
    + rewrite !elem_of_cons, IH. tauto.
Qed.

Lemma keys_set_in o k v : k ∈ keys o → keys (set o k v) = keys o.
Proof.
  induction o as [|[k0 v0] o IH]; simpl.
  - by intros ?%elem_of_nil.
  - destruct (String.eqb_spec k0 k) as [->|Hne]; simpl; [done|].
    rewrite elem_of_cons. intros [->|Hin]; [done|]. by rewrite IH.
Qed.

Lemma wf_set o k v : wf o → wf (set o k v).
Proof.
  unfold wf. induction o as [|[k0 v0] o IH]; simpl.
  - intros _. apply NoDup_singleton.
  - rewrite NoDup_cons. intros [Hnin Hnd].
    destruct (String.eqb_spec k0 k) as [->|Hne]; simpl.
    + by apply NoDup_cons.
    + apply NoDup_cons. split; [|auto].
      rewrite elem_of_keys_set. intros [->|?]; done.
Qed.

Lemma spread_nil_r a : spread a [] = a.
Proof. reflexivity. Qed.

Lemma spread_cons a k v b : spread a ((k, v) :: b) = spread (set a k v) b.
Proof. reflexivity. Qed.

Lemma elem_of_keys_spread a b k :
  k ∈ keys (spread a b) ↔ k ∈ keys a ∨ k ∈ keys b.
Proof.
  revert a. induction b as [|[k0 v0] b IH]; intros a.
  - simpl. rewrite elem_of_nil. tauto.
  - rewrite spread_cons, IH, elem_of_keys_set. simpl. rewrite elem_of_cons. tauto.
Qed.

Lemma wf_spread a b : wf a → wf (spread a b).
Proof.
  revert a. induction b as [|[k0 v0] b IH]; intros a Ha; [done|].
  rewrite spread_cons. by apply IH, wf_set.
Qed.

(** A key the second object lacks keeps the first object's value. *)
Lemma get_spread_notin a b k : k ∉ keys b → get (spread a b) k = get a k.
Proof.
  revert a. induction b as [|[k0 v0] b IH]; intros a; [done|].
  simpl keys. rewrite not_elem_of_cons. intros [Hne Hnin].
  rewrite spread_cons, IH by done. by apply get_set_ne.
Qed.

(** A key of the second object takes its value there. *)
Lemma get_spread_in a b k : wf b → k ∈ keys b → get (spread a b) k = get b k.
Proof.
  unfold wf. revert a. induction b as [|[k0 v0] b IH]; intros a Hwf Hin.
  - by apply elem_of_nil in Hin.
  - simpl in Hwf. apply NoDup_cons in Hwf as [Hk0 Hwf].
    rewrite spread_cons. simpl.
    destruct (String.eqb_spec k0 k) as [->|Hne].
    + rewrite get_spread_notin by done. apply get_set_eq.
    + simpl in Hin. apply elem_of_cons in Hin as [->|Hin]; [done|]. by apply IH.
Qed.

Lemma get_app_notin pre suf k : k ∉ keys pre → get (pre ++ suf) k = get suf k.
Proof.
  induction pre as [|[k0 v0] pre IH]; simpl; [done|].
  rewrite not_elem_of_cons. intros [Hne Hnin].
  destruct (String.eqb_spec k0 k); [congruence | auto].
Qed.

Lemma set_app_notin pre suf k v :
  k ∉ keys pre → set (pre ++ suf) k v = pre ++ set suf k v.
Proof.
  induction pre as [|[k0 v0] pre IH]; simpl; [done|].
  rewrite not_elem_of_cons. intros [Hne Hnin].
  destruct (String.eqb_spec k0 k); [congruence|]. by rewrite IH.
Qed.

End ObjFacts.

(** ** The parameter resolver *)

Section PromptFacts.

Import Prompt.

Implicit Types (props : option (gmap string QuestionSpec)) (k name : string).
Implicit Types (o merged inputs : Obj).

Lemma prop_read_entry props k s :
  entry props k = Some s → prop_read props k = Ok (Some s).
Proof. destruct props as [p|]; simpl; [by intros -> | done]. Qed.

Lemma prop_read_unset props k :
  unset props k → prop_read props k = Err TypeError ∨ prop_read props k = Ok None.
Proof.
  intros [Hnone [->|Hown]]; [by left|].
  destruct props as [p|]; simpl in *; [|by left].
  right. by rewrite Hnone, Hown.
Qed.

Lemma covers_entry props names k :
  covers props names → k ∈ names → ∃ s, entry props k = Some s.
Proof. unfold covers. rewrite Forall_forall. intros H Hk. exact (H k Hk). Qed.

Lemma covers_app props l1 l2 :
  covers props (l1 ++ l2) ↔ covers props l1 ∧ covers props l2.
Proof. apply Forall_app. Qed.

Lemma covers_incl props l1 l2 :
  covers props l2 → (∀ k, k ∈ l1 → k ∈ l2) → covers props l1.
Proof. unfold covers. rewrite !Forall_forall. auto. Qed.

(** Reading [props] under a name it has neither an entry nor an
    inherited member for stops the loop. *)
Lemma normalizeEach_missing props names k merged :
  k ∈ names → unset props k →
  normalizeEach props names merged = Err TypeError.
Proof.
  intros Hin Hnone. revert merged.
  induction names as [|n names IH]; intros merged.
  - by apply elem_of_nil in Hin.
  - simpl. apply elem_of_cons in Hin as [<-|Hin].
    + by destruct (prop_read_unset props k Hnone) as [-> | ->].
    + destruct (prop_read props n) as [[s|]|e] eqn:Hn; simpl.
      * by apply IH.
      * done.
      * destruct props; [discriminate|]. by injection Hn as <-.
Qed.

(** With an entry for every key, the loop normalizes each value in
    place. *)
Lemma normalizeEach_covered props suf : ∀ pre,
  wf (pre ++ suf) → covers props (keys suf) →
  normalizeEach props (keys suf) (pre ++ suf) = Ok (pre ++ normalized props suf).
Proof.
  induction suf as [|[k v] suf IH]; intros pre Hwf Hcov; [done|].
  simpl in Hcov. apply Forall_cons in Hcov as [[s Hs] Hcov].
  assert (Hk : k ∉ keys pre).
  { unfold wf, keys in Hwf. rewrite map_app in Hwf.
    apply NoDup_app in Hwf as (_ & Hdisj & _).
    intros Hin. apply (Hdisj k Hin). simpl. left. }
  simpl. rewrite (prop_read_entry _ _ _ Hs). simpl.
  unfold normalizeOf at 1. simpl. rewrite Hs.
  assert (Hstep : ∀ w, normalizeEach props (keys suf) (pre ++ (k, w) :: suf)
                       = Ok (pre ++ (k, w) :: normalized props suf)).
  { intros w. rewrite (cons_middle (k, w) pre suf), app_assoc, IH.
    - by rewrite <- app_assoc.
    - unfold wf, keys in *. rewrite <- app_assoc, map_app in *. done.
    - done. }
  destruct (qs_normalize s) as [f|]; [|apply Hstep].
  rewrite get_app_notin, set_app_notin by done. simpl. rewrite eqb_refl_s.
  apply Hstep.
Qed.

Lemma normalizeEach_keys props o :
  wf o → covers props (keys o) →
  normalizeEach props (keys o) o = Ok (normalized props o).
Proof. intros. by apply (normalizeEach_covered props o []). Qed.

Lemma keys_normalized props o : keys (normalized props o) = keys o.
Proof. unfold keys, normalized. rewrite map_map. by apply map_ext. Qed.

Lemma get_normalized props o k :
  k ∈ keys o → get (normalized props o) k = normalizeOf props k (get o k).
Proof.
  induction o as [|[k0 v0] o IH]; simpl.
  - by intros ?%elem_of_nil.
  - destruct (String.eqb_spec k0 k) as [->|Hne]; [done|].
    rewrite elem_of_cons. intros [->|Hin]; [done | auto].
Qed.

Lemma wf_normalized props o : wf o → wf (normalized props o).
Proof. unfold wf. by rewrite keys_normalized. Qed.

Lemma filter_nothing {A} (f : A → bool) (l : list A) :
  Forall (fun x => f x = false) l → List.filter f l = [].
Proof. induction 1 as [|x l Hx _ IH]; simpl; [done|]. by rewrite Hx. Qed.

End PromptFacts.

Section ResolverSteps.

Import Prompt.

Implicit Types (props : option (gmap string QuestionSpec)) (k name : string).
Implicit Types (o merged inputs : Obj).

Lemma filterM_elem {A} (p : A → Result bool) l r x :
  filterM p l = Ok r → x ∈ r → x ∈ l ∧ p x = Ok true.
Proof.
  revert r. induction l as [|y l IH]; simpl; intros r Hr Hx.
  - injection Hr as <-. by apply elem_of_nil in Hx.
  - destruct (p y) as [b|] eqn:Hy; simpl in Hr; [|done].
    destruct (filterM p l) as [rest|]; simpl in Hr; [|done].
    injection Hr as <-. destruct b.
    + apply elem_of_cons in Hx as [->|Hx].
      * split; [left | done].
      * destruct (IH rest eq_refl Hx). split; [by right | done].
    + destruct (IH rest eq_refl Hx). split; [by right | done].
Qed.

Lemma filterM_total {A} (p : A → Result bool) l :
  Forall (fun x => ∃ b, p x = Ok b) l → ∃ r, filterM p l = Ok r.
Proof.
  induction 1 as [|x l [b Hb] _ [r IH]]; simpl; [by eexists|].
  rewrite Hb, IH. simpl. by eexists.
Qed.

Lemma mapM_total {A B} (f : A → Result B) l :
  Forall (fun x => ∃ y, f x = Ok y) l → ∃ r, mapM f l = Ok r.
Proof.
  induction 1 as [|x l [y Hy] _ [r IH]]; simpl; [by eexists|].
  rewrite Hy, IH. simpl. by eexists.
Qed.

Lemma mapM_image {A B C} (f : A → Result B) (g : B → C) (h : A → C) l r :
  mapM f l = Ok r →
  Forall (fun x => ∀ y, f x = Ok y → g y = h x) l →
  map g r = map h l.
Proof.
  intros Hr Hall. revert r Hr.
  induction Hall as [|x l Hx _ IH]; simpl; intros r Hr.
  - by injection Hr as <-.
  - destruct (f x) as [y|] eqn:Hy; simpl in Hr; [|done].
    destruct (mapM f l) as [ys|]; simpl in Hr; [|done].
    injection Hr as <-. simpl. by rewrite (Hx y eq_refl), (IH ys eq_refl).
Qed.

Lemma hasChoicesToOffer_entry props k s :
  entry props k = Some s → ∃ b, hasChoicesToOffer props k = Ok b.
Proof.
  intros Hs. unfold hasChoicesToOffer.
  rewrite (prop_read_entry _ _ _ Hs). simpl. by eexists.
Qed.

(** A name whose entry has an empty list of choices does not pass the
    second filter. *)
Lemma hasChoicesToOffer_empty_list props k s :
  entry props k = Some s → qs_choices s = VArr [] →
  hasChoicesToOffer props k = Ok false.
Proof.
  intros Hs Hc. unfold hasChoicesToOffer.
  rewrite (prop_read_entry _ _ _ Hs). simpl. by rewrite Hc.
Qed.

Lemma promptFor_entry name defaults props s :
  entry props name = Some s →
  ∃ q, promptFor name defaults props = Ok q
       ∧ q_name q = default name (qs_name s).
Proof.
  intros Hs. unfold promptFor. rewrite (prop_read_entry _ _ _ Hs). simpl.
  destruct (truthy _); simpl; by eexists.
Qed.

Lemma promptFor_name name defaults props q :
  promptFor name defaults props = Ok q →
  q_name q = match entry props name with
             | Some s => default name (qs_name s)
             | None => name
             end.
Proof.
  unfold promptFor. destruct props as [p|]; simpl; [|done].
  destruct (p !! name) as [s|]; [|destruct (inheritedName name)];
    destruct (truthy _); simpl; intros [= <-]; done.
Qed.

(** The names a batch asks about once both filters ran, and the
    questions built for them, exist as soon as [props] covers the
    batch. *)
Lemma pending_covered props (first : list string) names :
  covers props names → (∀ k, k ∈ first → k ∈ names) →
  ∃ pending, filterM (hasChoicesToOffer props) first = Ok pending.
Proof.
  intros Hcov Hsub. apply filterM_total, Forall_forall. intros k Hk.
  destruct (covers_entry _ _ _ Hcov (Hsub k Hk)) as [s Hs].
  by apply (hasChoicesToOffer_entry _ _ s).
Qed.

Lemma questions_covered props defaults names pending :
  covers props names → (∀ k, k ∈ pending → k ∈ names) →
  ∃ qs, mapM (fun name => promptFor name defaults props) pending = Ok qs.
Proof.
  intros Hcov Hsub. apply mapM_total, Forall_forall. intros k Hk.
  destruct (covers_entry _ _ _ Hcov (Hsub k Hk)) as [s Hs].
  destruct (promptFor_entry k defaults props s Hs) as (q & Hq & _).
  by exists q.
Qed.

Lemma questions_names props defaults names pending qs :
  askedByKey props names → (∀ k, k ∈ pending → k ∈ names) →
  mapM (fun name => promptFor name defaults props) pending = Ok qs →
  map q_name qs = pending.
Proof.
  intros Hkey Hsub Hqs.
  transitivity (map (fun name : string => name) pending); [|apply map_id].
  apply (mapM_image _ _ _ _ _ Hqs), Forall_forall. intros k Hk q Hq.
  rewrite (promptFor_name _ _ _ _ Hq).
  unfold askedByKey in Hkey. rewrite Forall_forall in Hkey.
  specialize (Hkey k (Hsub k Hk)). by destruct (entry props k).
Qed.

End ResolverSteps.

Section Resolver.

Import Prompt.

Variable prompt : list Question -> Result Obj.

Implicit Types (props : option (gmap string QuestionSpec)) (k name : string).
Implicit Types (o merged inputs answers : Obj) (st : ModuleState).

(** Without a prompt round the inputs come back normalized. *)
Lemma answersFor_silent inputs questions props :
  wf inputs → covers props (keys inputs) →
  answersFor prompt inputs questions props false = Ok (normalized props inputs).
Proof. intros. unfold answersFor. simpl. by apply normalizeEach_keys. Qed.

(** After a round whose answers are keyed inside the batch, the merged
    object comes back normalized. *)
Lemma answersFor_asked inputs questions props answers :
  wf inputs → covers props (keys inputs) →
  prompt questions = Ok answers →
  Forall (fun k => k ∈ keys inputs) (keys answers) →
  answersFor prompt inputs questions props true
  = Ok (normalized props (spread inputs answers)).
Proof.
  intros Hwf Hcov Hans Hsub. unfold answersFor. rewrite Hans. simpl.
  apply normalizeEach_keys; [by apply wf_spread|].
  apply (covers_incl _ _ _ Hcov). intros k.
  rewrite elem_of_keys_spread. rewrite Forall_forall in Hsub.
  intros [?|?]; auto.
Qed.

(** A name [props] reads nothing under makes the batch fail, whatever
    the mode and whatever was asked. *)
Lemma answersFor_missing inputs questions props interactive k :
  k ∈ keys inputs → unset props k →
  failed (answersFor prompt inputs questions props interactive).
Proof.
  intros Hin Hnone. unfold answersFor. destruct interactive; simpl.
  - destruct (prompt questions) as [answers|]; simpl; [|done].
    rewrite (normalizeEach_missing props _ k); [done| |done].
    apply elem_of_keys_spread. by left.
  - by rewrite (normalizeEach_missing props _ k).
Qed.

Lemma argsPending_nothing inputs props :
  Forall (fun k => get inputs k ≠ VUndefined ∧ isEmpty (get inputs k) = false)
         (keys inputs) →
  argsPending inputs props = Ok [].
Proof.
  intros H. unfold argsPending. rewrite filter_nothing; [done|].
  apply (Forall_impl _ _ _ H). intros k [Hdef ->].
  by destruct (get inputs k).
Qed.

Lemma optsPending_nothing inputs props :
  Forall (fun k => get inputs k ≠ VUndefined) (keys inputs) →
  optsPending inputs props = Ok [].
Proof.
  intros H. unfold optsPending. rewrite filter_nothing; [done|].
  apply (Forall_impl _ _ _ H). intros k Hdef.
  by destruct (get inputs k).
Qed.

(** C1 (as amended).  When every name of [args] has a defined,
    non-empty value, every name of [opts] a defined value, and [props]
    has an entry for each of these names, both question sets are empty
    and the call returns the supplied values, each through the
    [normalize] its name declares, [opts] merged over [args].  In
    interactive mode the input primitive is still called, on no
    question; it is taken to resolve to no answer. *)
Theorem C1_supplied_values_returned_normalized st params interactive :
  let a := default [] (args params) in
  let o := default [] (opts params) in
  wf a → wf o →
  Forall (fun k => get a k ≠ VUndefined ∧ isEmpty (get a k) = false) (keys a) →
  Forall (fun k => get o k ≠ VUndefined) (keys o) →
  covers (props params) (keys a ++ keys o) →
  prompt [] = Ok [] →
  argsQuestions a (defaults params) (props params) = Ok []
  ∧ optsQuestions o (defaults params) (props params) = Ok []
  ∧ promptIfNeeded prompt st params interactive
    = Ok (spread (normalized (props params) a) (normalized (props params) o)).
Proof.
  intros a o Hwa Hwo Ha Ho Hcov Hnil.
  apply covers_app in Hcov as [Hca Hco].
  assert (Hqa : argsQuestions a (defaults params) (props params) = Ok []).
  { unfold argsQuestions. by rewrite argsPending_nothing. }
  assert (Hqo : optsQuestions o (defaults params) (props params) = Ok []).
  { unfold optsQuestions. by rewrite optsPending_nothing. }
  split; [done|]. split; [done|].
  unfold promptIfNeeded. fold a o. rewrite Hqa, Hqo. simpl.
  destruct (match interactive with Some b => b | None => _ end).
  - rewrite (answersFor_asked a [] _ []), (answersFor_asked o [] _ []);
      try done; by constructor.
  - by rewrite !answersFor_silent.
Qed.

End Resolver.

(** C1 as stated fails: the interface lets [props] be left out; the one
    argument is supplied and nothing is asked, yet the call throws where
    the final merge reads the [normalize] of the argument's entry. *)
Lemma C1_counterexample_no_entry :
  let params := {| Prompt.args := Some [("contractAlias", VStr "Foo")];
                   Prompt.opts := None;
                   Prompt.props := None;
                   Prompt.defaults := None |} in
  Forall (fun k => get [("contractAlias", VStr "Foo")] k ≠ VUndefined
                   ∧ isEmpty (get [("contractAlias", VStr "Foo")] k) = false)
         ["contractAlias"]
  ∧ Prompt.argsQuestions [("contractAlias", VStr "Foo")] None None = Ok []
  ∧ Prompt.promptIfNeeded Prompt.acceptDefaults Prompt.initial params (Some false)
    = Err TypeError
  ∧ Prompt.promptIfNeeded Prompt.acceptDefaults Prompt.initial params (Some true)
    = Err TypeError.
Proof. split; [by repeat constructor | by repeat split]. Qed.

Lemma C1_witness_unlink :
  Prompt.promptIfNeeded Prompt.acceptDefaults Prompt.initial
    (Prompt.unlinkParams (VArr [VStr "lib"]) ["lib"]) None
  = Ok [("dependencies", VArr [VStr "lib"])].
Proof.
  refine (proj2 (proj2 (C1_supplied_values_returned_normalized
            Prompt.acceptDefaults Prompt.initial
            (Prompt.unlinkParams (VArr [VStr "lib"]) ["lib"]) None
            _ _ _ _ _ _))).
  - repeat constructor. apply not_elem_of_nil.
  - constructor.
  - by repeat constructor.
  - constructor.
  - apply Forall_cons. split; [vm_compute; by eexists | constructor].
  - reflexivity.
Defined.

Section ResolverFailures.

Import Prompt.

Implicit Types (props : option (gmap string QuestionSpec)) (k name : string).

Lemma bind_Err {A B} (r : Result A) (k : A → Result B) e :
  Outcome.bind r k = Err e → r = Err e ∨ ∃ a, r = Ok a ∧ k a = Err e.
Proof. destruct r as [a|e']; simpl; [by right; exists a | by intros [= ->]; left]. Qed.

Lemma filterM_error {A} (p : A → Result bool) l e :
  (∀ x e', p x = Err e' → e' = TypeError) →
  filterM p l = Err e → e = TypeError.
Proof.
  intros Hp. induction l as [|x l IH]; simpl; [done|].
  destruct (p x) as [b|e'] eqn:Hx; simpl.
  - destruct (filterM p l); simpl; [done|]. intros [= <-]. by apply IH.
  - intros [= <-]. by apply (Hp x).
Qed.

Lemma filterM_fails {A} (p : A → Result bool) l x e :
  x ∈ l → p x = Err e → failed (filterM p l).
Proof.
  intros Hin Hx. induction l as [|y l IH]; [by apply elem_of_nil in Hin|].
  simpl. destruct (p y) as [b|] eqn:Hy; simpl; [|done].
  apply elem_of_cons in Hin as [->|Hin]; [congruence|].
  specialize (IH Hin). by destruct (filterM p l).
Qed.

Lemma mapM_error {A B} (f : A → Result B) l e :
  (∀ x e', f x = Err e' → e' = TypeError) →
  mapM f l = Err e → e = TypeError.
Proof.
  intros Hf. induction l as [|x l IH]; simpl; [done|].
  destruct (f x) as [y|e'] eqn:Hx; simpl.
  - destruct (mapM f l); simpl; [done|]. intros [= <-]. by apply IH.
  - intros [= <-]. by apply (Hf x).
Qed.

Lemma hasChoicesToOffer_error props k e :
  hasChoicesToOffer props k = Err e → e = TypeError.
Proof.
  unfold hasChoicesToOffer. destruct props as [p|]; simpl; [|congruence].
  destruct (p !! k); [|destruct (inheritedName k)]; simpl; congruence.
Qed.

Lemma promptFor_error name defaults props e :
  promptFor name defaults props = Err e → e = TypeError.
Proof.
  unfold promptFor. destruct props as [p|]; simpl; [|congruence].
  destruct (truthy _); simpl; [congruence|].
  destruct (p !! name); [|destruct (inheritedName name)]; simpl; congruence.
Qed.

(** Building the question sets never touches the input primitive: when
    it fails, a property of [undefined] was read. *)
Lemma argsQuestions_error inputs defaults props e :
  argsQuestions inputs defaults props = Err e → e = TypeError.
Proof.
  unfold argsQuestions, argsPending.
  destruct (filterM _ _) as [pending|e'] eqn:Hp; simpl.
  - apply mapM_error. intros x e'. apply promptFor_error.
  - intros [= <-]. revert Hp. apply filterM_error.
    intros x e''. apply hasChoicesToOffer_error.
Qed.

Lemma optsQuestions_error inputs defaults props e :
  optsQuestions inputs defaults props = Err e → e = TypeError.
Proof.
  unfold optsQuestions, optsPending.
  destruct (filterM _ _) as [pending|e'] eqn:Hp; simpl.
  - apply mapM_error. intros x e'. apply promptFor_error.
  - intros [= <-]. revert Hp. apply filterM_error.
    intros x e''. apply hasChoicesToOffer_error.
Qed.

Lemma normalizeEach_error props names merged e :
  normalizeEach props names merged = Err e → e = TypeError.
Proof.
  revert merged. induction names as [|n names IH]; intros merged; simpl; [done|].
  destruct props as [p|]; simpl; [|congruence].
  destruct (p !! n); [|destruct (inheritedName n)];
    [apply IH | apply IH | congruence].
Qed.

End ResolverFailures.

Section ResolverContract.

Import Prompt.

Variable prompt : list Question -> Result Obj.

Implicit Types (props : option (gmap string QuestionSpec)) (k name : string).
Implicit Types (st : ModuleState) (params : PromptParams).

Lemma promptIfNeeded_missing st params interactive k :
  k ∈ keys (default [] (args params)) ++ keys (default [] (opts params)) →
  unset (props params) k →
  failed (promptIfNeeded prompt st params interactive).
Proof.
  intros Hin Hnone. unfold promptIfNeeded.
  set (i := match interactive with Some b => b | None => _ end).
  destruct (argsQuestions _ _ _) as [qa|]; simpl; [|done].
  destruct (optsQuestions _ _ _) as [qo|]; simpl; [|done].
  apply elem_of_app in Hin as [Hin|Hin].
  - pose proof (answersFor_missing prompt _ qa _ i k Hin Hnone) as Hf.
    by destruct (answersFor prompt _ qa _ i).
  - destruct (answersFor prompt _ qa _ i); simpl; [|done].
    pose proof (answersFor_missing prompt _ qo _ i k Hin Hnone) as Hf.
    by destruct (answersFor prompt _ qo _ i).
Qed.

Lemma promptIfNeeded_silent_error st params e :
  promptIfNeeded prompt st params (Some false) = Err e → e = TypeError.
Proof.
  unfold promptIfNeeded, answersFor. simpl.
  intros [Hqa|(qa & _ & H)]%bind_Err; [by apply argsQuestions_error in Hqa|].
  apply bind_Err in H as [Hqo|(qo & _ & H)]; [by apply optsQuestions_error in Hqo|].
  apply bind_Err in H as [Hra|(ra & _ & H)]; [by apply normalizeEach_error in Hra|].
  apply bind_Err in H as [Hro|(ro & _ & H)]; [by apply normalizeEach_error in Hro|].
  discriminate.
Qed.

Lemma batches_covered params :
  let a := default [] (args params) in
  let o := default [] (opts params) in
  covers (props params) (keys a ++ keys o) →
  (∃ qa, argsQuestions a (defaults params) (props params) = Ok qa)
  ∧ (∃ qo, optsQuestions o (defaults params) (props params) = Ok qo).
Proof.
  intros a o [Hca Hco]%covers_app. split.
  - unfold argsQuestions, argsPending.
    destruct (pending_covered (props params) (List.filter
      (fun n => is_undefined (get a n) || isEmpty (get a n)) (keys a)) (keys a) Hca)
      as [pending Hp].
    { intros k Hk. apply list_elem_of_In, filter_In in Hk as [Hk _].
      by apply list_elem_of_In. }
    rewrite Hp. simpl. apply (questions_covered _ _ (keys a)); [done|].
    intros k Hk. destruct (filterM_elem _ _ _ _ Hp Hk) as [Hk' _].
    apply list_elem_of_In, filter_In in Hk' as [Hk' _]. by apply list_elem_of_In.
  - unfold optsQuestions, optsPending.
    destruct (pending_covered (props params) (List.filter
      (fun n => is_undefined (get o n)) (keys o)) (keys o) Hco)
      as [pending Hp].
    { intros k Hk. apply list_elem_of_In, filter_In in Hk as [Hk _].
      by apply list_elem_of_In. }
    rewrite Hp. simpl. apply (questions_covered _ _ (keys o)); [done|].
    intros k Hk. destruct (filterM_elem _ _ _ _ Hp Hk) as [Hk' _].
    apply list_elem_of_In, filter_In in Hk' as [Hk' _]. by apply list_elem_of_In.
Qed.

Lemma hasChoicesToOffer_missing props k :
  unset props k → hasChoicesToOffer props k = Err TypeError.
Proof.
  intros Hnone. unfold hasChoicesToOffer.
  by destruct (prop_read_unset props k Hnone) as [-> | ->].
Qed.

Lemma elem_of_filter_keys (f : string → bool) (names : list string) k :
  k ∈ names → f k = true → k ∈ List.filter f names.
Proof. intros Hk Hf. apply list_elem_of_In, filter_In. by rewrite <- list_elem_of_In. Qed.

(** The entry of a name that is still to be asked about is read while
    the question set is built. *)
Lemma argsQuestions_missing inputs defaults props k :
  k ∈ keys inputs →
  is_undefined (get inputs k) || isEmpty (get inputs k) = true →
  unset props k →
  argsQuestions inputs defaults props = Err TypeError.
Proof.
  intros Hk Hpending Hnone.
  destruct (argsQuestions inputs defaults props) as [qs|e] eqn:Hq;
    [|by rewrite (argsQuestions_error _ _ _ _ Hq)].
  exfalso. unfold argsQuestions, argsPending in Hq.
  pose proof (filterM_fails (hasChoicesToOffer props) _ k TypeError
                (elem_of_filter_keys
                   (fun n => is_undefined (get inputs n) || isEmpty (get inputs n))
                   (keys inputs) k Hk Hpending)
                (hasChoicesToOffer_missing props k Hnone)) as Hf.
  by destruct (filterM _ _).
Qed.

Lemma optsQuestions_missing inputs defaults props k :
  k ∈ keys inputs → is_undefined (get inputs k) = true →
  unset props k →
  optsQuestions inputs defaults props = Err TypeError.
Proof.
  intros Hk Hpending Hnone.
  destruct (optsQuestions inputs defaults props) as [qs|e] eqn:Hq;
    [|by rewrite (optsQuestions_error _ _ _ _ Hq)].
  exfalso. unfold optsQuestions, optsPending in Hq.
  pose proof (filterM_fails (hasChoicesToOffer props) _ k TypeError
                (elem_of_filter_keys
                   (fun n => is_undefined (get inputs n)) (keys inputs) k Hk Hpending)
                (hasChoicesToOffer_missing props k Hnone)) as Hf.
  by destruct (filterM _ _).
Qed.

(** C9 (as amended).  [props] must have an entry for every name of
    [args] and of [opts], the names [Object.prototype] defines apart.
    The entry of a name is read for its [choices] while the question
    sets are built when the name is still to be asked about (undefined,
    or empty in [args]), and for its [normalize] in the final merge
    whatever its value; so if [props] is omitted, or an entry is missing
    under a name that [props] does not inherit a member for, the call
    fails instead of returning an answer set (with the TypeError of
    reading a property of [undefined] when no prompt round runs before
    it).  Under a name such as [toString] a [props] without an entry
    reads the inherited function and nothing throws: those names are
    outside the first half.  If [props] has an entry of its own for
    every name, both question sets are built, the non-interactive call
    returns, and so does the interactive one once its two rounds resolve
    with answers keyed inside their batch. *)
Theorem C9_props_must_cover_every_name st params interactive :
  let a := default [] (args params) in
  let o := default [] (opts params) in
  let p := props params in
  (∀ k, unset p k →
     (k ∈ keys a → is_undefined (get a k) || isEmpty (get a k) = true →
      argsQuestions a (defaults params) p = Err TypeError)
     ∧ (k ∈ keys o → is_undefined (get o k) = true →
        optsQuestions o (defaults params) p = Err TypeError)
     ∧ (∀ inputs questions, k ∈ keys inputs →
          failed (answersFor prompt inputs questions p true)
          ∧ answersFor prompt inputs questions p false = Err TypeError)
     ∧ (k ∈ keys a ++ keys o →
        failed (promptIfNeeded prompt st params interactive)
        ∧ promptIfNeeded prompt st params (Some false) = Err TypeError))
  ∧ (wf a → wf o → covers p (keys a ++ keys o) →
     (∃ qa, argsQuestions a (defaults params) p = Ok qa)
     ∧ (∃ qo, optsQuestions o (defaults params) p = Ok qo)
     ∧ promptIfNeeded prompt st params (Some false)
       = Ok (spread (normalized p a) (normalized p o))
     ∧ ∀ qa qo ansA ansO,
         argsQuestions a (defaults params) p = Ok qa →
         optsQuestions o (defaults params) p = Ok qo →
         prompt qa = Ok ansA → prompt qo = Ok ansO →
         Forall (fun k => k ∈ keys a) (keys ansA) →
         Forall (fun k => k ∈ keys o) (keys ansO) →
         promptIfNeeded prompt st params (Some true)
         = Ok (spread (normalized p (spread a ansA))
                      (normalized p (spread o ansO)))).
Proof.
  intros a o p. split.
  - intros k Hnone. split; [|split; [|split]].
    + intros Hk Hpending. by apply (argsQuestions_missing _ _ _ k).
    + intros Hk Hpending. by apply (optsQuestions_missing _ _ _ k).
    + intros inputs questions Hk.
      split; [by apply (answersFor_missing _ _ _ _ _ k)|].
      unfold answersFor. simpl. by apply (normalizeEach_missing _ _ k).
    + intros Hin. split; [by apply (promptIfNeeded_missing _ _ _ k)|].
      pose proof (promptIfNeeded_missing st params (Some false) k Hin Hnone) as Hf.
      destruct (promptIfNeeded prompt st params (Some false)) as [r|e] eqn:Hr; [done|].
      by rewrite (promptIfNeeded_silent_error _ _ _ Hr).
  - intros Hwa Hwo Hcov.
    destruct (batches_covered params Hcov) as [[qa Hqa] [qo Hqo]].
    fold a o p in Hqa, Hqo.
    apply covers_app in Hcov as [Hca Hco].
    split; [by exists qa|]. split; [by exists qo|]. split.
    + unfold promptIfNeeded. fold a o p. rewrite Hqa, Hqo. simpl.
      by rewrite !answersFor_silent.
    + intros qa' qo' ansA ansO Hqa' Hqo' HA HO HkA HkO.
      unfold promptIfNeeded. fold a o p. rewrite Hqa', Hqo'. simpl.
      rewrite (answersFor_asked prompt a qa' p ansA) by done. simpl.
      by rewrite (answersFor_asked prompt o qo' p ansO).
Qed.

(** C10.  An omitted [interactive] stands for the current value of
    [DEFAULT_INTERACTIVE_STATUS]; the module starts with [true], so a
    call that leaves it out runs as an interactive one: on a closed
    input stream [unlink] without arguments fails in its prompt round,
    where the non-interactive call returns. *)
Theorem C10_omitted_interactive_reads_the_flag st params :
  promptIfNeeded prompt st params None
  = promptIfNeeded prompt st params (Some (DEFAULT_INTERACTIVE_STATUS st))
  ∧ DEFAULT_INTERACTIVE_STATUS initial = true
  ∧ promptIfNeeded prompt initial params None
    = promptIfNeeded prompt initial params (Some true)
  ∧ promptIfNeeded closedInput initial (unlinkParams (VArr []) ["lib"]) None
    = Err PromptFailure
  ∧ promptIfNeeded closedInput initial (unlinkParams (VArr []) ["lib"]) (Some false)
    = Ok [("dependencies", VArr [])].
Proof. by repeat split. Qed.

End ResolverContract.

Section ResolverMerge.

Import Prompt.

Implicit Types (props : option (gmap string QuestionSpec)) (k name : string).
Implicit Types (a o ansA ansO : Obj).

Lemma In_filter_keys (f : string → bool) a k :
  k ∈ List.filter f (keys a) → k ∈ keys a ∧ f k = true.
Proof. intros [? ?]%list_elem_of_In%filter_In. by rewrite list_elem_of_In. Qed.

(** The question set of [args]: one question per name that is
    undefined or empty and has choices to offer, asked under that
    name. *)
Lemma argsQuestions_asked a defaults props :
  covers props (keys a) → askedByKey props (keys a) →
  ∃ qa, argsQuestions a defaults props = Ok qa
        ∧ ∀ k, k ∈ map q_name qa →
               k ∈ keys a
               ∧ is_undefined (get a k) || isEmpty (get a k) = true
               ∧ hasChoicesToOffer props k = Ok true.
Proof.
  intros Hcov Hkey. unfold argsQuestions, argsPending.
  set (first := List.filter _ (keys a)).
  destruct (pending_covered props first (keys a) Hcov) as [pending Hp].
  { intros k Hk. by apply In_filter_keys in Hk as [? _]. }
  assert (Hsub : ∀ k, k ∈ pending →
            k ∈ keys a ∧ is_undefined (get a k) || isEmpty (get a k) = true
            ∧ hasChoicesToOffer props k = Ok true).
  { intros k Hk. destruct (filterM_elem _ _ _ _ Hp Hk) as [Hk' Hoff].
    apply In_filter_keys in Hk' as [? ?]. done. }
  rewrite Hp. simpl.
  destruct (questions_covered props defaults (keys a) pending Hcov) as [qa Hqa].
  { intros k Hk. by apply Hsub. }
  exists qa. split; [done|].
  rewrite (questions_names props defaults (keys a) pending qa Hkey); [done| |done].
  intros k Hk. by apply Hsub.
Qed.

(** The question set of [opts]: one question per undefined name that
    has choices to offer. *)
Lemma optsQuestions_asked o defaults props :
  covers props (keys o) → askedByKey props (keys o) →
  ∃ qo, optsQuestions o defaults props = Ok qo
        ∧ ∀ k, k ∈ map q_name qo →
               k ∈ keys o
               ∧ is_undefined (get o k) = true
               ∧ hasChoicesToOffer props k = Ok true.
Proof.
  intros Hcov Hkey. unfold optsQuestions, optsPending.
  set (first := List.filter _ (keys o)).
  destruct (pending_covered props first (keys o) Hcov) as [pending Hp].
  { intros k Hk. by apply In_filter_keys in Hk as [? _]. }
  assert (Hsub : ∀ k, k ∈ pending →
            k ∈ keys o ∧ is_undefined (get o k) = true
            ∧ hasChoicesToOffer props k = Ok true).
  { intros k Hk. destruct (filterM_elem _ _ _ _ Hp Hk) as [Hk' Hoff].
    apply In_filter_keys in Hk' as [? ?]. done. }
  rewrite Hp. simpl.
  destruct (questions_covered props defaults (keys o) pending Hcov) as [qo Hqo].
  { intros k Hk. by apply Hsub. }
  exists qo. split; [done|].
  rewrite (questions_names props defaults (keys o) pending qo Hkey); [done| |done].
  intros k Hk. by apply Hsub.
Qed.

(** What a name reads in the returned object when nothing was answered
    under it. *)
Lemma merged_kept props a o ansA ansO k :
  wf a → wf o →
  Forall (fun n => n ∈ keys o) (keys ansO) →
  let r := spread (normalized props (spread a ansA))
                  (normalized props (spread o ansO)) in
  (k ∈ keys o → k ∉ keys ansO → get r k = normalizeOf props k (get o k))
  ∧ (k ∈ keys a → k ∉ keys o → k ∉ keys ansA →
     get r k = normalizeOf props k (get a k)).
Proof.
  intros Hwa Hwo HsubO r. subst r. split.
  - intros Hk Hn.
    rewrite get_spread_in.
    + rewrite get_normalized by (apply elem_of_keys_spread; by left).
      by rewrite get_spread_notin.
    + by apply wf_normalized, wf_spread.
    + rewrite keys_normalized. apply elem_of_keys_spread. by left.
  - intros Hk Hno Hn.
    rewrite get_spread_notin.
    + rewrite get_normalized by (apply elem_of_keys_spread; by left).
      by rewrite get_spread_notin.
    + rewrite keys_normalized, elem_of_keys_spread.
      rewrite Forall_forall in HsubO. intros [?|?]; auto.
Qed.

End ResolverMerge.

Section ResolverAnswers.

Import Prompt.

Variable prompt : list Question -> Result Obj.
Hypothesis prompt_keys : answersItsQuestions prompt.
Hypothesis prompt_resolves : resolves prompt.

Implicit Types (props : option (gmap string QuestionSpec)) (k name : string).
Implicit Types (st : ModuleState) (params : PromptParams).

(** With [props] covering both batches and the primitive answering,
    the call returns: each batch is its inputs overlaid with the
    answers to its own questions, normalized, and [opts] is merged over
    [args]. *)
Lemma promptIfNeeded_returns st params interactive :
  let a := default [] (args params) in
  let o := default [] (opts params) in
  let p := props params in
  wf a → wf o → covers p (keys a ++ keys o) → askedByKey p (keys a ++ keys o) →
  ∃ qa qo ansA ansO,
    argsQuestions a (defaults params) p = Ok qa
    ∧ optsQuestions o (defaults params) p = Ok qo
    ∧ (∀ k, k ∈ map q_name qa →
         k ∈ keys a ∧ is_undefined (get a k) || isEmpty (get a k) = true
         ∧ hasChoicesToOffer p k = Ok true)
    ∧ (∀ k, k ∈ map q_name qo →
         k ∈ keys o ∧ is_undefined (get o k) = true
         ∧ hasChoicesToOffer p k = Ok true)
    ∧ Forall (fun k => k ∈ map q_name qa) (keys ansA)
    ∧ Forall (fun k => k ∈ map q_name qo) (keys ansO)
    ∧ promptIfNeeded prompt st params interactive
      = Ok (spread (normalized p (spread a ansA)) (normalized p (spread o ansO))).
Proof.
  intros a o p Hwa Hwo [Hca Hco]%covers_app [Hka Hko]%Forall_app.
  destruct (argsQuestions_asked a (defaults params) p Hca Hka) as (qa & Hqa & Ha).
  destruct (optsQuestions_asked o (defaults params) p Hco Hko) as (qo & Hqo & Ho).
  unfold promptIfNeeded. fold a o p. rewrite Hqa, Hqo. simpl.
  destruct (match interactive with Some b => b | None => _ end).
  - destruct (prompt_resolves qa) as [ansA HA].
    destruct (prompt_resolves qo) as [ansO HO].
    pose proof (prompt_keys qa ansA HA) as HkA.
    pose proof (prompt_keys qo ansO HO) as HkO.
    exists qa, qo, ansA, ansO. repeat (split; [done|]).
    rewrite (answersFor_asked prompt a qa p ansA); [simpl|done..|].
    + rewrite (answersFor_asked prompt o qo p ansO); [done..|].
      apply (Forall_impl _ _ _ HkO). intros k Hk. by apply Ho.
    + apply (Forall_impl _ _ _ HkA). intros k Hk. by apply Ha.
  - exists qa, qo, [], []. repeat (split; [done|]).
    by rewrite !answersFor_silent.
Qed.

(** C3 (as amended).  In the returned answer set a name keeps the
    value it was supplied with, through its [normalize], when that
    value is defined and, for a name of [args], not empty: no question
    is asked under such a name, so no answer comes in for it.  ([opts]
    is merged over [args]: a name of [args] that is also a name of
    [opts] reads what [opts] yields.)  This assumes [props] covers the
    names, questions are asked under the names they are built for, and
    the rounds resolve with answers to the questions asked. *)
Theorem C3_supplied_values_survive_the_answers st params interactive :
  let a := default [] (args params) in
  let o := default [] (opts params) in
  let p := props params in
  wf a → wf o → covers p (keys a ++ keys o) → askedByKey p (keys a ++ keys o) →
  ∃ r, promptIfNeeded prompt st params interactive = Ok r
       ∧ (∀ k, k ∈ keys o → get o k ≠ VUndefined →
            get r k = normalizeOf p k (get o k))
       ∧ (∀ k, k ∈ keys a → k ∉ keys o →
            get a k ≠ VUndefined → isEmpty (get a k) = false →
            get r k = normalizeOf p k (get a k)).
Proof.
  intros a o p Hwa Hwo Hcov Hkey.
  destruct (promptIfNeeded_returns st params interactive Hwa Hwo Hcov Hkey)
    as (qa & qo & ansA & ansO & _ & _ & Ha & Ho & HkA & HkO & Hr).
  fold a o p in Ha, Ho, Hr.
  rewrite Forall_forall in HkA, HkO.
  assert (HsubO : Forall (fun n => n ∈ keys o) (keys ansO)).
  { apply Forall_forall. intros k Hk. by apply Ho, HkO. }
  eexists. split; [exact Hr|]. split.
  - intros k Hk Hdef.
    apply (merged_kept p a o ansA ansO k Hwa Hwo HsubO); [done|].
    intros Hin. destruct (Ho k (HkO k Hin)) as (_ & Hu & _).
    by destruct (get o k).
  - intros k Hk Hno Hdef Hne.
    apply (merged_kept p a o ansA ansO k Hwa Hwo HsubO); [done..|].
    intros Hin. destruct (Ha k (HkA k Hin)) as (_ & Hu & _).
    rewrite Hne in Hu. by destruct (get a k).
Qed.

(** C8 (as amended).  A name whose entry in [props] has an empty list
    of choices is asked about in neither batch, and the returned answer
    set holds for it the value it was supplied with, through its
    [normalize]: it is undefined there when it was supplied undefined
    and declares no [normalize].  Same assumptions as for C3. *)
Theorem C8_empty_choices_are_not_asked st params interactive x s :
  let a := default [] (args params) in
  let o := default [] (opts params) in
  let p := props params in
  wf a → wf o → covers p (keys a ++ keys o) → askedByKey p (keys a ++ keys o) →
  entry p x = Some s → qs_choices s = VArr [] →
  ∃ qa qo r,
    argsQuestions a (defaults params) p = Ok qa
    ∧ optsQuestions o (defaults params) p = Ok qo
    ∧ (x ∉ map q_name qa) ∧ (x ∉ map q_name qo)
    ∧ promptIfNeeded prompt st params interactive = Ok r
    ∧ (x ∈ keys o → get r x = normalizeOf p x (get o x))
    ∧ (x ∈ keys a → x ∉ keys o → get r x = normalizeOf p x (get a x))
    ∧ (qs_normalize s = None → get a x = VUndefined → get o x = VUndefined →
       get r x = VUndefined).
Proof.
  intros a o p Hwa Hwo Hcov Hkey Hs Hempty.
  destruct (promptIfNeeded_returns st params interactive Hwa Hwo Hcov Hkey)
    as (qa & qo & ansA & ansO & Hqa & Hqo & Ha & Ho & HkA & HkO & Hr).
  fold a o p in Hqa, Hqo, Ha, Ho, Hr.
  rewrite Forall_forall in HkA, HkO.
  pose proof (hasChoicesToOffer_empty_list p x s Hs Hempty) as Hoff.
  assert (HxA : x ∉ map q_name qa).
  { intros Hin. destruct (Ha x Hin) as (_ & _ & Hyes). congruence. }
  assert (HxO : x ∉ map q_name qo).
  { intros Hin. destruct (Ho x Hin) as (_ & _ & Hyes). congruence. }
  assert (HsubO : Forall (fun n => n ∈ keys o) (keys ansO)).
  { apply Forall_forall. intros k Hk. by apply Ho, HkO. }
  assert (HnA : x ∉ keys ansA) by (intros Hin; by apply HxA, HkA).
  assert (HnO : x ∉ keys ansO) by (intros Hin; by apply HxO, HkO).
  pose proof (merged_kept p a o ansA ansO x Hwa Hwo HsubO) as [HgetO HgetA].
  exists qa, qo. eexists.
  split; [exact Hqa|]. split; [exact Hqo|]. split; [exact HxA|].
  split; [exact HxO|]. split; [exact Hr|]. split; [auto|]. split; [auto|].
  intros Hnorm Hua Huo.
  assert (Hid : ∀ v, normalizeOf p x v = v).
  { intros v. unfold normalizeOf. by rewrite Hs, Hnorm. }
  destruct (decide (x ∈ keys o)) as [Hino|Hino].
  { by rewrite HgetO, Hid. }
  destruct (decide (x ∈ keys a)) as [Hina|Hina].
  { by rewrite HgetA, Hid. }
  apply get_notin. rewrite elem_of_keys_spread, !keys_normalized.
  rewrite !elem_of_keys_spread. tauto.
Qed.

End ResolverAnswers.

(** *** The sample users meet the interface of the input primitive *)

Section SampleUsers.

Import Prompt.

Lemma answers_keys (f : Question → Value) questions : ∀ acc k,
  k ∈ keys (fold_left (fun answers q => set answers (q_name q) (f q)) questions acc) →
  k ∈ keys acc ∨ k ∈ map q_name questions.
Proof.
  induction questions as [|q questions IH]; intros acc k; simpl; [by left|].
  intros [Hk|Hk]%IH.
  - apply elem_of_keys_set in Hk as [->|Hk]; [right; left | by left].
  - right. by right.
Qed.

Lemma answerAll_keys v : answersItsQuestions (answerAll v).
Proof.
  intros questions answers [= <-]. apply Forall_forall. intros k Hk.
  apply answers_keys in Hk as [Hk|Hk]; [by apply elem_of_nil in Hk | done].
Qed.

Lemma answerAll_resolves v : resolves (answerAll v).
Proof. intros questions. by eexists. Qed.

Lemma acceptDefaults_keys : answersItsQuestions acceptDefaults.
Proof.
  intros questions answers [= <-]. apply Forall_forall. intros k Hk.
  apply answers_keys in Hk as [Hk|Hk]; [by apply elem_of_nil in Hk | done].
Qed.

Lemma acceptDefaults_resolves : resolves acceptDefaults.
Proof. intros questions. by eexists. Qed.

End SampleUsers.

(** C3 as stated fails: [unlink] called without dependency names
    supplies the defined value [[]]; being empty it is asked about, and
    the answer takes its place. *)
Lemma C3_counterexample_empty_argument :
  get [("dependencies", VArr [])] "dependencies" ≠ VUndefined
  ∧ Prompt.promptIfNeeded (Prompt.answerAll (VArr [VStr "lib"])) Prompt.initial
      (Prompt.unlinkParams (VArr []) ["lib"]) (Some true)
    = Ok [("dependencies", VArr [VStr "lib"])].
Proof. split; [discriminate | reflexivity]. Qed.

Lemma C3_witness_unlink :
  ∃ r, Prompt.promptIfNeeded (Prompt.answerAll (VArr [VStr "other"])) Prompt.initial
         (Prompt.unlinkParams (VArr [VStr "lib"]) ["lib"; "other"]) (Some true) = Ok r
       ∧ get r "dependencies" = VArr [VStr "lib"].
Proof.
  destruct (C3_supplied_values_survive_the_answers
              (Prompt.answerAll (VArr [VStr "other"]))
              (answerAll_keys _) (answerAll_resolves _)
              Prompt.initial
              (Prompt.unlinkParams (VArr [VStr "lib"]) ["lib"; "other"]) (Some true))
    as (r & Hr & _ & Hargs).
  - repeat constructor. apply not_elem_of_nil.
  - constructor.
  - apply Forall_cons. split; [vm_compute; by eexists | constructor].
  - apply Forall_cons. split; [by vm_compute | constructor].
  - exists r. split; [exact Hr|].
    apply (Hargs "dependencies"); [left | apply not_elem_of_nil | discriminate | reflexivity].
Defined.

(** C8 as stated fails: the name has no choice to offer and is not asked
    about, yet its [normalize] runs on the undefined value and the answer
    set holds what it yields. *)
Lemma C8_counterexample_normalize :
  let spec := {| Prompt.qs_name := None;
                 Prompt.qs_type := VStr "checkbox";
                 Prompt.qs_message := VStr "Select the dependencies you want to unlink";
                 Prompt.qs_choices := VArr [];
                 Prompt.qs_default := VUndefined;
                 Prompt.qs_normalize := Some Prompt.orEverything |} in
  let params := {| Prompt.args := Some [("dependencies", VUndefined)];
                   Prompt.opts := None;
                   Prompt.props := Some {[ "dependencies" := spec ]};
                   Prompt.defaults := None |} in
  Prompt.argsQuestions [("dependencies", VUndefined)] None (Prompt.props params) = Ok []
  ∧ Prompt.promptIfNeeded Prompt.acceptDefaults Prompt.initial params (Some true)
    = Ok [("dependencies", VStr "everything")].
Proof. split; reflexivity. Qed.

Lemma C8_witness_unlink :
  ∃ qa r, Prompt.argsQuestions [("dependencies", VUndefined)] None
            (Some (Prompt.unlinkProps [])) = Ok qa
          ∧ ("dependencies" ∉ map Prompt.q_name qa)
          ∧ Prompt.promptIfNeeded Prompt.acceptDefaults Prompt.initial
              (Prompt.unlinkParams VUndefined []) (Some true) = Ok r
          ∧ get r "dependencies" = VUndefined.
Proof.
  destruct (C8_empty_choices_are_not_asked Prompt.acceptDefaults
              acceptDefaults_keys acceptDefaults_resolves
              Prompt.initial (Prompt.unlinkParams VUndefined []) (Some true)
              "dependencies"
              {| Prompt.qs_name := None;
                 Prompt.qs_type := VStr "checkbox";
                 Prompt.qs_message := VStr "Select the dependencies you want to unlink";
                 Prompt.qs_choices := VArr [];
                 Prompt.qs_default := VUndefined;
                 Prompt.qs_normalize := None |})
    as (qa & qo & r & Hqa & _ & HxA & _ & Hr & _ & _ & Hund).
  - repeat constructor. apply not_elem_of_nil.
  - constructor.
  - apply Forall_cons. split; [vm_compute; by eexists | constructor].
  - apply Forall_cons. split; [by vm_compute | constructor].
  - by vm_compute.
  - reflexivity.
  - exists qa, r. repeat (split; [done|]). by apply Hund.
Defined.

(** C9 as stated fails in two places.  It has the entry of every name
    read while the names are filtered: the supplied [contractAlias] has
    no entry, and both question sets are built all the same; its entry
    is first read in the final merge.  And it has every name without an
    entry fail the call: under [toString], which [Object.prototype]
    defines, a [props] without an entry reads the inherited function,
    nothing throws and the value comes back as passed. *)
Lemma C9_counterexample_supplied_name :
  (Prompt.entry (Some ∅) "contractAlias" = None
   ∧ Prompt.inheritedName "contractAlias" = false
   ∧ Prompt.argsQuestions [("contractAlias", VStr "Foo")] None (Some ∅) = Ok []
   ∧ Prompt.optsQuestions [] None (Some ∅) = Ok []
   ∧ Prompt.answersFor Prompt.closedInput [("contractAlias", VStr "Foo")] []
       (Some ∅) false
     = Err TypeError)
  ∧ (Prompt.entry (Some ∅) "toString" = None
     ∧ Prompt.promptIfNeeded Prompt.closedInput Prompt.initial
         {| Prompt.args := Some [("toString", VStr "Foo")];
            Prompt.opts := None;
            Prompt.props := Some ∅;
            Prompt.defaults := None |} (Some false)
       = Ok [("toString", VStr "Foo")]).
Proof. by repeat split. Qed.

Lemma C9_witness_no_entry :
  Prompt.promptIfNeeded Prompt.closedInput Prompt.initial
    {| Prompt.args := Some [("contractAlias", VStr "Foo")];
       Prompt.opts := Some [("network", VUndefined)];
       Prompt.props := Some (Prompt.unlinkProps []);
       Prompt.defaults := None |} (Some false)
  = Err TypeError.
Proof.
  refine (proj2 (proj2 (proj2 (proj2 (proj1
            (C9_props_must_cover_every_name Prompt.closedInput Prompt.initial
               {| Prompt.args := Some [("contractAlias", VStr "Foo")];
                  Prompt.opts := Some [("network", VUndefined)];
                  Prompt.props := Some (Prompt.unlinkProps []);
                  Prompt.defaults := None |} (Some false)) "network" _))) _)).
  - split; [by vm_compute | right; reflexivity].
  - right. left.
Defined.

(** ** The proxy resolver *)

Section ProxyFacts.

Import Proxy.

Variable projectName : string.
Variable networkProxies : string -> list ProxyRecord.

Implicit Types (info : ContractInfo) (network : string) (query proxy : ProxyRecord).

Lemma getProxies_first network query before first after :
  networkProxies network = before ++ first :: after →
  Forall (fun proxy => matchesQuery query proxy = false) before →
  matchesQuery query first = true →
  getProxies networkProxies network query
  = first :: List.filter (matchesQuery query) after.
Proof.
  intros Hrecords Hbefore Hfirst. unfold getProxies.
  rewrite Hrecords, List.filter_app, (filter_nothing _ _ Hbefore). simpl.
  by rewrite Hfirst.
Qed.

Lemma getProxies_none network query :
  Forall (fun proxy => matchesQuery query proxy = false) (networkProxies network) →
  getProxies networkProxies network query = [].
Proof. intros H. unfold getProxies. by apply filter_nothing. Qed.

(** C2.  When an alias or an address is given and [first] is the
    first record of the network file, in file order, that matches the
    query built from the caller's fields, the result carries the full
    name rebuilt from the package and contract of [first], the address
    of [first], and as reference the caller's address if given, else
    that full name. *)
Theorem C2_first_matching_proxy_is_authoritative info network before first after :
  let query := {| package := packageName info;
                  contract := contractAlias info;
                  address := proxyAddress info |} in
  truthy (proxyAddress info) || truthy (contractAlias info) = true →
  networkProxies network = before ++ first :: after →
  Forall (fun proxy => matchesQuery query proxy = false) before →
  matchesQuery query first = true →
  let contractFullName :=
    toContractFullName projectName (package first) (contract first) in
  proxyInfo projectName networkProxies info network
  = [("contractFullName", contractFullName);
     ("address", address first);
     ("proxyReference",
      if truthy (proxyAddress info) then proxyAddress info else contractFullName)].
Proof.
  intros query Hgiven Hrecords Hbefore Hfirst fullName.
  unfold proxyInfo, hasProxies. fold query.
  rewrite (getProxies_first network query before first after Hrecords Hbefore Hfirst).
  destruct (truthy (proxyAddress info)) eqn:Haddr; simpl.
  - unfold or_else. by rewrite Haddr.
  - simpl in Hgiven. rewrite Hgiven. simpl. unfold or_else. by rewrite Haddr.
Qed.

(** C4.  When an alias or an address is given and no record of the
    network file matches the query, the full name is synthesized from
    the caller's package and alias, and the reference is the caller's
    address if given, else that full name; the package is left out of
    the name when it is the project's own or is not given. *)
Theorem C4_unmatched_reference_is_synthesized info network :
  let query := {| package := packageName info;
                  contract := contractAlias info;
                  address := proxyAddress info |} in
  truthy (proxyAddress info) || truthy (contractAlias info) = true →
  Forall (fun proxy => matchesQuery query proxy = false) (networkProxies network) →
  let contractFullName :=
    toContractFullName projectName (packageName info) (contractAlias info) in
  proxyInfo projectName networkProxies info network
  = [("proxyReference",
      if truthy (proxyAddress info) then proxyAddress info else contractFullName);
     ("contractFullName", contractFullName)]
  ∧ (∀ alias, contractAlias info = VStr alias →
       (packageName info = VStr projectName → contractFullName = VStr alias)
       ∧ (packageName info = VUndefined → contractFullName = VStr alias)
       ∧ (∀ pkg, packageName info = VStr pkg → pkg ≠ projectName →
            contractFullName = VStr (pkg +:+ "/" +:+ alias))).
Proof.
  intros query Hgiven Hnone fullName. split.
  - unfold proxyInfo, hasProxies. fold query.
    rewrite (getProxies_none network query Hnone).
    destruct (truthy (proxyAddress info)) eqn:Haddr; simpl.
    + unfold or_else. by rewrite Haddr.
    + simpl in Hgiven. rewrite Hgiven. simpl. unfold or_else. by rewrite Haddr.
  - intros alias Halias. subst fullName. unfold toContractFullName.
    rewrite Halias. repeat split.
    + intros ->. by rewrite eqb_refl_s.
    + by intros ->.
    + intros pkg -> Hne. by destruct (String.eqb_spec pkg projectName).
Qed.

End ProxyFacts.

(** The case of the description: alias [Foo], no address, and one record
    of the local project for [Foo] at [0xAA]. *)
Lemma C2_witness_Foo :
  Proxy.proxyInfo "local"
    (fun _ => [ {| Proxy.package := VStr "local"; Proxy.contract := VStr "Foo";
                   Proxy.address := VStr "0xAA" |} ])
    {| Proxy.contractAlias := VStr "Foo"; Proxy.proxyAddress := VUndefined;
       Proxy.packageName := VUndefined |} "mainnet"
  = [("contractFullName", VStr "Foo"); ("address", VStr "0xAA");
     ("proxyReference", VStr "Foo")].
Proof.
  exact (C2_first_matching_proxy_is_authoritative "local"
           (fun _ => [ {| Proxy.package := VStr "local"; Proxy.contract := VStr "Foo";
                          Proxy.address := VStr "0xAA" |} ])
           {| Proxy.contractAlias := VStr "Foo"; Proxy.proxyAddress := VUndefined;
              Proxy.packageName := VUndefined |} "mainnet" []
           {| Proxy.package := VStr "local"; Proxy.contract := VStr "Foo";
              Proxy.address := VStr "0xAA" |} []
           eq_refl eq_refl (List.Forall_nil _) eq_refl).
Defined.

(** The case of the description: alias [Bar] of the local project at
    [0xBB], and no record. *)
Lemma C4_witness_Bar :
  Proxy.proxyInfo "local" (fun _ => [])
    {| Proxy.contractAlias := VStr "Bar"; Proxy.proxyAddress := VStr "0xBB";
       Proxy.packageName := VStr "local" |} "mainnet"
  = [("proxyReference", VStr "0xBB"); ("contractFullName", VStr "Bar")].
Proof.
  exact (proj1 (C4_unmatched_reference_is_synthesized "local" (fun _ => [])
           {| Proxy.contractAlias := VStr "Bar"; Proxy.proxyAddress := VStr "0xBB";
              Proxy.packageName := VStr "local" |} "mainnet"
           eq_refl (List.Forall_nil _))).
Defined.

(** ** The contract and method catalog *)

Section CatalogFacts.

Import Prompt Catalog.

Variable getContractNames : list string.
Variable contractNamesAndAliases : list (string * string).
Variable dependencies : list string.
Variable contractAliases : string -> list string.
Variable fromContractFullName : string -> Value * Value.
Variable hasContract : Value -> Value -> bool.
Variable methodsFromAst : Value -> Value -> list Method.

Abbreviation contractMethods :=
  (contractMethods fromContractFullName hasContract methodsFromAst).
Abbreviation methodsList :=
  (methodsList fromContractFullName hasContract methodsFromAst).
Abbreviation argsList :=
  (argsList fromContractFullName hasContract methodsFromAst).
Abbreviation initArgsForPrompt :=
  (initArgsForPrompt fromContractFullName hasContract methodsFromAst).
Abbreviation contractsList :=
  (contractsList getContractNames contractNamesAndAliases dependencies contractAliases).

Implicit Types (m : Method) (methods : list Method) (id : string).

Lemma identifies_false id m :
  identifies id m = false ↔ m_selector m ≠ Some id ∧ m_name m ≠ id.
Proof.
  unfold identifies. rewrite orb_false_iff, String.eqb_neq.
  destruct (m_selector m) as [sel|].
  - rewrite String.eqb_neq. split; intros [? ?]; (split; [congruence | done]).
  - split; intros [? ?]; done.
Qed.

Lemma identifies_true id m :
  identifies id m = true ↔ m_selector m = Some id ∨ m_name m = id.
Proof.
  unfold identifies. rewrite orb_true_iff, String.eqb_eq.
  destruct (m_selector m) as [sel|].
  - rewrite String.eqb_eq. split; (intros [?|?]; [left; congruence | by right]).
  - split; (intros [?|?]; [done | by right]).
Qed.

Lemma find_first {A} (f : A → bool) before x after :
  Forall (fun y => f y = false) before → f x = true →
  List.find f (before ++ x :: after) = Some x.
Proof.
  intros Hbefore Hx. induction Hbefore as [|y before Hy _ IH]; simpl.
  - by rewrite Hx.
  - by rewrite Hy.
Qed.

Lemma find_nothing {A} (f : A → bool) l :
  Forall (fun y => f y = false) l → List.find f l = None.
Proof. induction 1 as [|y l Hy _ IH]; simpl; [done|]. by rewrite Hy. Qed.

Lemma find_agree {A} (f g : A → bool) l :
  Forall (fun y => f y = g y) l → List.find f l = List.find g l.
Proof. induction 1 as [|y l Hy _ IH]; simpl; [done|]. by rewrite Hy, IH. Qed.

(** When no selector is also a name, the single pass of [.find] and the
    lookup in two passes pick the same method. *)
Lemma find_identifies_two_passes id methods :
  (∀ m m', m ∈ methods → m' ∈ methods → m_selector m ≠ Some (m_name m')) →
  List.find (identifies id) methods = findBySelectorThenName id methods.
Proof.
  intros Hdisj. unfold findBySelectorThenName.
  set (bySelector := fun m => match m_selector m with
                              | Some selector => String.eqb selector id
                              | None => false
                              end).
  destruct (List.find bySelector methods) as [found|] eqn:Hfound.
  - rewrite <- Hfound. apply find_agree, Forall_forall. intros m Hm.
    apply find_some in Hfound as [Hin Hsel]. apply list_elem_of_In in Hin.
    unfold identifies. fold (bySelector m).
    destruct (String.eqb_spec (m_name m) id) as [Hname|]; [|by rewrite orb_false_r].
    exfalso. apply (Hdisj found m Hin Hm). unfold bySelector in Hsel.
    destruct (m_selector found) as [sel|]; [|done].
    apply String.eqb_eq in Hsel. congruence.
  - apply find_agree, Forall_forall. intros m Hm.
    unfold identifies. fold (bySelector m).
    by rewrite (find_none _ _ Hfound m (proj1 (list_elem_of_In _ _) Hm)).
Qed.

(** C5.  [argsList] answers with the input names, in order, of the
    first method of the contract whose selector or whose name is the
    identifier, the selector being compared first; with no such method
    it answers with the empty list.  For methods as introspection
    yields them, where no selector is also a name, this is the method a
    lookup by selector, then by name, finds. *)
Theorem C5_argsList_by_selector_or_name contractFullName id :
  let methods := contractMethods contractFullName in
  (Forall (fun m => m_selector m ≠ Some id ∧ m_name m ≠ id) methods →
   argsList contractFullName id = [])
  ∧ (∀ before m after,
       methods = before ++ m :: after →
       Forall (fun m' => m_selector m' ≠ Some id ∧ m_name m' ≠ id) before →
       m_selector m = Some id ∨ m_name m = id →
       argsList contractFullName id = map i_name (m_inputs m))
  ∧ ((∀ m m', m ∈ methods → m' ∈ methods → m_selector m ≠ Some (m_name m')) →
     argsList contractFullName id
     = match findBySelectorThenName id methods with
       | Some m => map i_name (m_inputs m)
       | None => []
       end).
Proof.
  intros methods. unfold Catalog.argsList. fold methods. repeat split.
  - intros Hnone. rewrite find_nothing; [done|].
    apply (Forall_impl _ _ _ Hnone). intros m. by rewrite identifies_false.
  - intros before m after -> Hbefore Hm. rewrite (find_first _ before m after).
    + done.
    + apply (Forall_impl _ _ _ Hbefore). intros m'. by rewrite identifies_false.
    + by apply identifies_true.
  - intros Hdisj. by rewrite find_identifies_two_passes.
Qed.

Lemma contractMethods_unknown contractFullName :
  hasContract (fromContractFullName contractFullName).2
              (fromContractFullName contractFullName).1 = false →
  contractMethods contractFullName = [].
Proof.
  intros Hno. unfold Catalog.contractMethods.
  destruct (fromContractFullName contractFullName) as [contractAlias packageName].
  simpl in Hno. by rewrite Hno.
Qed.

(** C6.  A lookup that resolves to nothing answers with an empty
    result.  For a contract the local controller does not know,
    [contractMethods], [methodsList] and [argsList] are the empty list
    and [initArgsForPrompt] the empty object; so are [argsList] and
    [initArgsForPrompt] for an identifier that is the selector or name of
    no method; for a source other than the three it knows,
    [contractsList] is its empty array.  These functions have a plain
    result: no path of theirs throws, the collaborators being taken to
    answer. *)
Theorem C6_unresolvable_lookups_are_empty :
  (∀ contractFullName,
     hasContract (fromContractFullName contractFullName).2
                 (fromContractFullName contractFullName).1 = false →
     contractMethods contractFullName = []
     ∧ methodsList contractFullName = []
     ∧ ∀ id, argsList contractFullName id = []
             ∧ initArgsForPrompt contractFullName id = [])
  ∧ (∀ contractFullName id,
       Forall (fun m => m_selector m ≠ Some id ∧ m_name m ≠ id)
              (contractMethods contractFullName) →
       argsList contractFullName id = []
       ∧ initArgsForPrompt contractFullName id = [])
  ∧ (∀ name message type source,
       source ≠ "" → source ≠ "fromBuildDir" →
       source ≠ "fromLocal" → source ≠ "all" →
       contractsList name message type (Some source) = EmptyArray
       ∧ choicesOf name (contractsList name message type (Some source)) = []).
Proof.
  split; [|split].
  - intros contractFullName Hno.
    pose proof (contractMethods_unknown contractFullName Hno) as Hnone.
    unfold Catalog.methodsList, Catalog.argsList, Catalog.initArgsForPrompt.
    by rewrite Hnone.
  - intros contractFullName id Hnone.
    unfold Catalog.argsList, Catalog.initArgsForPrompt.
    rewrite find_nothing; [done|].
    apply (Forall_impl _ _ _ Hnone). intros m. by rewrite identifies_false.
  - intros name message type source H1 H2 H3 H4.
    unfold Catalog.contractsList. simpl.
    apply String.eqb_neq in H1, H2, H3, H4. by rewrite H1, H2, H3, H4.
Qed.

Lemma separator_not_string line s : Separator line ≠ VStr s.
Proof. discriminate. Qed.

Lemma elem_of_localSection line built :
  Separator line ∈ localSection built ↔ line = " = Local contracts =" ∧ built ≠ [].
Proof.
  unfold localSection. destruct built as [|b built].
  - rewrite elem_of_nil. by intros; split; [|intros [_ ?]].
  - rewrite elem_of_cons, list_elem_of_fmap. split.
    + intros [[= ->]|(x & Hx & _)]; [done | discriminate].
    + intros [-> _]. by left.
Qed.

Lemma elem_of_dependencySection line dependencyName aliases :
  Separator line ∈ dependencySection dependencyName aliases
  ↔ line = " = " +:+ dependencyName +:+ " =" ∧ aliases ≠ [].
Proof.
  unfold dependencySection. destruct aliases as [|b aliases].
  - rewrite elem_of_nil. by intros; split; [|intros [_ ?]].
  - rewrite elem_of_cons, list_elem_of_fmap. split.
    + intros [[= ->]|(x & Hx & _)]; [done | discriminate].
    + intros [-> _]. by left.
Qed.

Lemma section_of_build built :
  (if (0 <? length (map VStr built))%nat
   then Separator " = Local contracts =" :: map VStr built
   else map VStr built) = localSection built.
Proof. by destruct built. Qed.

Lemma section_of_dependency dependencyName aliases :
  (let contractNames :=
     map (fun contractName => VStr (dependencyName +:+ "/" +:+ contractName)) aliases in
   if (0 <? length contractNames)%nat
   then Separator (" = " +:+ dependencyName +:+ " =") :: contractNames
   else contractNames) = dependencySection dependencyName aliases.
Proof. by destruct aliases. Qed.

(** C7.  The listing of every contract carries, in this order, the
    built contracts and then, dependency by dependency, the aliases of
    the dependency written [dependency/alias].  The built contracts come
    after a separator naming the local contracts, the aliases of a
    dependency after a separator naming it, and a section without
    contract has no separator: the separators of the listing are exactly
    those of the sections that are not empty. *)
Theorem C7_listing_of_all_contracts name message type :
  let choices :=
    localSection getContractNames
    ++ concat (map (fun dependencyName =>
                      dependencySection dependencyName (contractAliases dependencyName))
                   dependencies) in
  contractsList name message type (Some "all")
  = Questions (inquirerQuestion name message type (VArr choices))
  ∧ choicesOf name (contractsList name message type (Some "all")) = choices
  ∧ ∀ line,
      Separator line ∈ choices
      ↔ (line = " = Local contracts =" ∧ getContractNames ≠ [])
        ∨ ∃ dependencyName,
            dependencyName ∈ dependencies
            ∧ line = " = " +:+ dependencyName +:+ " ="
            ∧ contractAliases dependencyName ≠ [].
Proof.
  intros choices.
  assert (Hlist : contractsList name message type (Some "all")
                  = Questions (inquirerQuestion name message type (VArr choices))).
  { unfold Catalog.contractsList. simpl.
    rewrite section_of_build. do 3 f_equal. subst choices. do 2 f_equal.
    apply map_ext. intros dependencyName. apply section_of_dependency. }
  split; [done|]. split.
  - rewrite Hlist. unfold choicesOf, inquirerQuestion.
    by rewrite lookup_singleton_eq.
  - intros line. subst choices.
    rewrite elem_of_app, elem_of_localSection. apply or_iff_compat_l.
    rewrite list_elem_of_In, in_concat. split.
    + intros (section & Hsec & Hin). apply in_map_iff in Hsec as (d & <- & Hd).
      apply list_elem_of_In, elem_of_dependencySection in Hin as [-> Hne].
      exists d. by rewrite list_elem_of_In.
    + intros (d & Hd & -> & Hne).
      exists (dependencySection d (contractAliases d)). split.
      * apply in_map_iff. exists d. by rewrite <- list_elem_of_In.
      * apply list_elem_of_In, elem_of_dependencySection. done.
Qed.

End CatalogFacts.

(** The method [initialize(uint256 amount)] is found under its name,
    after [transfer], which the identifier does not name. *)
Lemma C5_witness_initialize :
  Catalog.argsList Catalog.bareAlias Catalog.onlyToken Catalog.tokenMethods
    "Token" "initialize"
  = ["amount"].
Proof.
  refine (proj1 (proj2 (C5_argsList_by_selector_or_name
            Catalog.bareAlias Catalog.onlyToken Catalog.tokenMethods
            "Token" "initialize"))
          [Catalog.transferMethod] Catalog.initializeMethod [] eq_refl _ _).
  - apply List.Forall_cons; [split; discriminate | constructor].
  - by right.
Defined.

(** A contract the project does not have, and a source that is none of
    the three. *)
Lemma C6_witness_unknown :
  Catalog.argsList Catalog.bareAlias Catalog.onlyToken Catalog.tokenMethods
    "Ghost" "initialize" = []
  ∧ Catalog.contractsList ["Token"] [("Token", "Token")] ["dep1"] (fun _ => ["A"; "B"])
      "contract" "Pick a contract" "list" (Some "fromDependencies")
    = Catalog.EmptyArray.
Proof.
  pose proof (C6_unresolvable_lookups_are_empty
                ["Token"] [("Token", "Token")] ["dep1"] (fun _ => ["A"; "B"])
                Catalog.bareAlias Catalog.onlyToken Catalog.tokenMethods)
    as (Hcontract & _ & Hsource).
  split.
  - exact (proj1 (proj2 (proj2 (Hcontract "Ghost" eq_refl)) "initialize")).
  - refine (proj1 (Hsource "contract" "Pick a contract" "list" "fromDependencies"
                     _ _ _ _)); discriminate.
Defined.

(** The case of the description: nothing built, and one dependency
    [dep1] with the contracts [A] and [B]. *)
Lemma C7_witness_dep1 :
  Catalog.choicesOf "contract"
    (Catalog.contractsList [] [] ["dep1"] (fun _ => ["A"; "B"])
       "contract" "Pick a contract" "list" (Some "all"))
  = [Catalog.Separator " = dep1 ="; VStr "dep1/A"; VStr "dep1/B"].
Proof.
  exact (proj1 (proj2 (C7_listing_of_all_contracts [] [] ["dep1"] (fun _ => ["A"; "B"])
                         "contract" "Pick a contract" "list"))).
Defined.

(** The label and value [methodsList] builds for an initializer. *)
Example methodsList_initialize :
  Catalog.methodsList Catalog.bareAlias Catalog.onlyToken
    (fun _ _ => [Catalog.initializeMethod]) "Token"
  = [ {| Catalog.mc_label := "[Initializable] initialize(amount: uint256)";
         Catalog.mc_name := "initialize";
         Catalog.mc_selector := Some "initialize(uint256)" |} ].
Proof. reflexivity. Qed.

(** [initArgsForPrompt] lists the inputs of the method with no value yet. *)
Example initArgsForPrompt_transfer :
  Catalog.initArgsForPrompt Catalog.bareAlias Catalog.onlyToken Catalog.tokenMethods
    "Token" "transfer(address,uint256)"
  = [("to", VUndefined); ("value", VUndefined)].
Proof. reflexivity. Qed.

(** The single pass of [argsList] and a lookup in two passes part ways
    only on methods no introspection yields, where a selector is also a
    name. *)
Example single_pass_prefers_the_earlier_method :
  let methods :=
    [ {| Catalog.m_name := "x"; Catalog.m_selector := Some "s";
         Catalog.m_inputs := [ {| Catalog.i_name := "a"; Catalog.i_type := "bool" |} ];
         Catalog.m_hasInitializer := false |};
      {| Catalog.m_name := "y"; Catalog.m_selector := Some "x";
         Catalog.m_inputs := [ {| Catalog.i_name := "b"; Catalog.i_type := "bool" |} ];
         Catalog.m_hasInitializer := false |} ] in
  Catalog.argsList Catalog.bareAlias Catalog.onlyToken (fun _ _ => methods) "Token" "x"
  = ["a"]
  ∧ (Catalog.m_name <$> Catalog.findBySelectorThenName "x" methods) = Some "y".
Proof. split; reflexivity. Qed.

(** * Further properties *)

(** ** The parameter resolver: what is asked *)

Section AskingFacts.

Import Prompt Asking.

Implicit Types (props : option (gmap string QuestionSpec)) (k name : string).
Implicit Types (a o inputs : Obj) (defaults : option Obj).

Lemma hasChoicesToOffer_offers props k s :
  entry props k = Some s → hasChoicesToOffer props k = Ok (offers props k).
Proof.
  intros Hs. unfold hasChoicesToOffer, offers.
  by rewrite (prop_read_entry _ _ _ Hs), Hs.
Qed.

Lemma filterM_offers props names :
  covers props names →
  filterM (hasChoicesToOffer props) names = Ok (List.filter (offers props) names).
Proof.
  induction 1 as [|k names [s Hs] _ IH]; simpl; [done|].
  rewrite (hasChoicesToOffer_offers _ _ _ Hs), IH. simpl.
  by destruct (offers props k).
Qed.

Lemma filter_twice {A} (f g : A → bool) (l : list A) :
  List.filter g (List.filter f l) = List.filter (fun x => f x && g x) l.
Proof.
  induction l as [|x l IH]; simpl; [done|].
  destruct (f x); simpl; [|done]. destruct (g x); by rewrite IH.
Qed.

Lemma elem_of_bool_filter {A} (f : A → bool) (l : list A) x :
  x ∈ List.filter f l ↔ x ∈ l ∧ f x = true.
Proof. by rewrite !list_elem_of_In, filter_In. Qed.

Lemma covers_filter props (f : string → bool) names :
  covers props names → covers props (List.filter f names).
Proof.
  intros H. apply (covers_incl _ _ _ H). intros k Hk.
  by apply elem_of_bool_filter in Hk as [? _].
Qed.

Lemma argsPending_toAsk a props :
  covers props (keys a) → argsPending a props = Ok (argsToAsk a props).
Proof.
  intros Hcov. unfold argsPending, argsToAsk.
  rewrite filterM_offers by by apply covers_filter.
  by rewrite filter_twice.
Qed.

Lemma optsPending_toAsk o props :
  covers props (keys o) → optsPending o props = Ok (optsToAsk o props).
Proof.
  intros Hcov. unfold optsPending, optsToAsk.
  rewrite filterM_offers by by apply covers_filter.
  by rewrite filter_twice.
Qed.

Lemma promptFor_builtFrom defaults props k s :
  entry props k = Some s →
  ∃ q, promptFor k defaults props = Ok q ∧ builtFrom defaults props k q.
Proof.
  intros Hs. unfold promptFor. rewrite (prop_read_entry _ _ _ Hs). simpl.
  set (dv := match defaults with Some d => default_read d k | None => VUndefined end).
  destruct (truthy dv) eqn:Hdv; simpl; eexists; (split; [done|]);
    exists s; repeat (split; [done|]); unfold defaultFor, or_else; fold dv;
    by rewrite Hdv.
Qed.

Lemma questions_builtFrom defaults props pending :
  covers props pending →
  ∃ qs, mapM (fun name => promptFor name defaults props) pending = Ok qs
        ∧ Forall2 (builtFrom defaults props) pending qs.
Proof.
  induction 1 as [|k pending [s Hs] _ (qs & Hqs & Hall)]; simpl.
  - exists []. split; [done | constructor].
  - destruct (promptFor_builtFrom defaults props k s Hs) as (q & Hq & Hb).
    rewrite Hq, Hqs. simpl. exists (q :: qs). split; [done | by constructor].
Qed.

End AskingFacts.

Section AskingOrder.

Import Prompt Asking.

(** X5.  When [props] has an entry for every name, the question set of
    each batch holds one question per name that is still undefined (or,
    in [args], empty) and whose choices are not an empty list, in the
    order of the batch's keys; each question carries the type, message
    and choices of the name's entry, and as default the value [defaults]
    has for the name when that value is truthy, the entry's own default
    otherwise. *)
Theorem X5_questions_follow_the_keys params :
  let a := default [] (args params) in
  let o := default [] (opts params) in
  let p := props params in
  let d := defaults params in
  covers p (keys a ++ keys o) →
  ∃ qa qo,
    argsQuestions a d p = Ok qa
    ∧ optsQuestions o d p = Ok qo
    ∧ Forall2 (builtFrom d p) (argsToAsk a p) qa
    ∧ Forall2 (builtFrom d p) (optsToAsk o p) qo.
Proof.
  intros a o p d [Hca Hco]%covers_app.
  destruct (questions_builtFrom d p (argsToAsk a p)) as (qa & Hqa & Ha).
  { by apply covers_filter. }
  destruct (questions_builtFrom d p (optsToAsk o p)) as (qo & Hqo & Ho).
  { by apply covers_filter. }
  exists qa, qo. unfold argsQuestions, optsQuestions.
  rewrite argsPending_toAsk, optsPending_toAsk by done. simpl.
  by rewrite Hqa, Hqo.
Qed.

End AskingOrder.

(** A falsy value in [defaults] does not reach the question: [publish]
    is asked with the default of its entry. *)
Lemma X5_witness_falsy_default :
  let spec := {| Prompt.qs_name := None;
                 Prompt.qs_type := VStr "confirm";
                 Prompt.qs_message := VStr "Publish?";
                 Prompt.qs_choices := VUndefined;
                 Prompt.qs_default := VBool true;
                 Prompt.qs_normalize := None |} in
  let p := Some {[ "publish" := spec ]} in
  let d := Some [("publish", VBool false)] in
  ∃ qa qo,
    Prompt.argsQuestions [] d p = Ok qa
    ∧ Prompt.optsQuestions [("publish", VUndefined)] d p = Ok qo
    ∧ Forall2 (Asking.builtFrom d p) [] qa
    ∧ Forall2 (Asking.builtFrom d p) ["publish"] qo.
Proof.
  intros spec p d.
  apply (X5_questions_follow_the_keys
           {| Prompt.args := None;
              Prompt.opts := Some [("publish", VUndefined)];
              Prompt.props := p;
              Prompt.defaults := d |}).
  apply Forall_cons. split; [vm_compute; by eexists | constructor].
Defined.

(** ** The parameter resolver: what is returned *)

Section Returned.

Import Prompt.

Implicit Types (prompt : list Question -> Result Obj).
Implicit Types (st : ModuleState) (params : PromptParams) (k : string).

(** X1.  A non-interactive call does not depend on the input primitive:
    whatever inquirer would do, the outcome is the same, be [interactive]
    passed as [false] or omitted while the module flag is off. *)
Theorem X1_silent_call_ignores_inquirer prompt prompt' st params :
  promptIfNeeded prompt st params (Some false)
  = promptIfNeeded prompt' st params (Some false)
  ∧ (DEFAULT_INTERACTIVE_STATUS st = false →
     promptIfNeeded prompt st params None
     = promptIfNeeded prompt' st params (Some false)).
Proof.
  split; [reflexivity|]. intros Hflag. unfold promptIfNeeded. by rewrite Hflag.
Qed.

(** X2.  A prompt round that rejects fails the whole call with the same
    error: the round of [args] at once, the round of [opts] after the
    round of [args] has resolved; no answer set is returned. *)
Theorem X2_rejected_round_fails_the_call prompt st params qa qo e :
  let a := default [] (args params) in
  let o := default [] (opts params) in
  let p := props params in
  argsQuestions a (defaults params) p = Ok qa →
  optsQuestions o (defaults params) p = Ok qo →
  (prompt qa = Err e → promptIfNeeded prompt st params (Some true) = Err e)
  ∧ (∀ ansA, wf a → covers p (keys a) →
       prompt qa = Ok ansA → Forall (fun k => k ∈ keys a) (keys ansA) →
       prompt qo = Err e →
       promptIfNeeded prompt st params (Some true) = Err e).
Proof.
  intros a o p Hqa Hqo. unfold promptIfNeeded. fold a o p.
  rewrite Hqa, Hqo. simpl. split.
  - intros He. unfold answersFor at 1. by rewrite He.
  - intros ansA Hwa Hcov HA Hsub He.
    rewrite (answersFor_asked prompt a qa p ansA) by done. simpl.
    unfold answersFor. by rewrite He.
Qed.

(** X3.  Without prompting, and with an entry in [props] for every
    name, the answer set reads for a name of [opts] the option's value
    through its [normalize], for any other name of [args] the argument's
    value through its [normalize], and [undefined] for every other name.
    A name of both batches reads its option, also when the option is
    undefined and the argument is not. *)
Theorem X3_silent_call_reads_opts_over_args prompt st params :
  let a := default [] (args params) in
  let o := default [] (opts params) in
  let p := props params in
  wf a → wf o → covers p (keys a ++ keys o) →
  ∃ r, promptIfNeeded prompt st params (Some false) = Ok r
       ∧ (∀ k, k ∈ keys o → get r k = normalizeOf p k (get o k))
       ∧ (∀ k, k ∈ keys a → k ∉ keys o → get r k = normalizeOf p k (get a k))
       ∧ (∀ k, k ∉ keys a → k ∉ keys o → get r k = VUndefined).
Proof.
  intros a o p Hwa Hwo Hcov.
  destruct (batches_covered params Hcov) as [[qa Hqa] [qo Hqo]].
  fold a o p in Hqa, Hqo. apply covers_app in Hcov as [Hca Hco].
  exists (spread (normalized p a) (normalized p o)). split; [|split; [|split]].
  - unfold promptIfNeeded. fold a o p. rewrite Hqa, Hqo. simpl.
    by rewrite !answersFor_silent.
  - intros k Hk. rewrite get_spread_in.
    + by apply get_normalized.
    + by apply wf_normalized.
    + by rewrite keys_normalized.
  - intros k Hka Hko. rewrite get_spread_notin by by rewrite keys_normalized.
    by apply get_normalized.
  - intros k Hka Hko. apply get_notin.
    rewrite elem_of_keys_spread, !keys_normalized. tauto.
Qed.

End Returned.

Section ReturnedAnswers.

Import Prompt.

Variable prompt : list Question -> Result Obj.

Implicit Types (st : ModuleState) (params : PromptParams) (k : string).

(** X4.  The answer set has exactly the names of [args] and of [opts],
    each once, whatever was asked and answered.  This assumes [props]
    covers the names, questions are asked under the names they are built
    for, and the rounds resolve with answers to the questions asked. *)
Theorem X4_answer_set_has_the_declared_names st params interactive :
  let a := default [] (args params) in
  let o := default [] (opts params) in
  let p := props params in
  answersItsQuestions prompt → resolves prompt →
  wf a → wf o → covers p (keys a ++ keys o) → askedByKey p (keys a ++ keys o) →
  ∃ r, promptIfNeeded prompt st params interactive = Ok r
       ∧ wf r
       ∧ ∀ k, k ∈ keys r ↔ k ∈ keys a ∨ k ∈ keys o.
Proof.
  intros a o p Hkeys Hres Hwa Hwo Hcov Hkey.
  destruct (promptIfNeeded_returns prompt Hkeys Hres st params interactive
              Hwa Hwo Hcov Hkey)
    as (qa & qo & ansA & ansO & _ & _ & Ha & Ho & HkA & HkO & Hr).
  fold a o p in Ha, Ho, Hr. rewrite Forall_forall in HkA, HkO.
  eexists. split; [exact Hr|]. split.
  - by apply wf_spread, wf_normalized, wf_spread.
  - intros k. rewrite elem_of_keys_spread, !keys_normalized, !elem_of_keys_spread.
    split; [|tauto].
    intros [[?|Hk]|[?|Hk]]; auto.
    + left. by apply Ha, HkA.
    + right. by apply Ho, HkO.
Qed.

(** X6.  What a round answers reaches the answer set through the
    [normalize] of its name: an answer of the round of [opts] always, an
    answer of the round of [args] unless the name is also a name of
    [opts]. *)
Theorem X6_answers_are_normalized st params qa qo ansA ansO :
  let a := default [] (args params) in
  let o := default [] (opts params) in
  let p := props params in
  wf a → wf o → wf ansA → wf ansO → covers p (keys a ++ keys o) →
  argsQuestions a (defaults params) p = Ok qa →
  optsQuestions o (defaults params) p = Ok qo →
  prompt qa = Ok ansA → prompt qo = Ok ansO →
  Forall (fun k => k ∈ keys a) (keys ansA) →
  Forall (fun k => k ∈ keys o) (keys ansO) →
  ∃ r, promptIfNeeded prompt st params (Some true) = Ok r
       ∧ (∀ k, k ∈ keys ansO → get r k = normalizeOf p k (get ansO k))
       ∧ (∀ k, k ∈ keys ansA → k ∉ keys o →
            get r k = normalizeOf p k (get ansA k)).
Proof.
  intros a o p Hwa Hwo HwA HwO [Hca Hco]%covers_app Hqa Hqo HA HO HsubA HsubO.
  exists (spread (normalized p (spread a ansA)) (normalized p (spread o ansO))).
  split; [|split].
  - unfold promptIfNeeded. fold a o p. rewrite Hqa, Hqo. simpl.
    rewrite (answersFor_asked prompt a qa p ansA) by done. simpl.
    by rewrite (answersFor_asked prompt o qo p ansO).
  - intros k Hk. rewrite get_spread_in.
    + rewrite get_normalized by (apply elem_of_keys_spread; by right).
      by rewrite get_spread_in.
    + by apply wf_normalized, wf_spread.
    + rewrite keys_normalized. apply elem_of_keys_spread. by right.
  - intros k Hk Hno. rewrite get_spread_notin.
    + rewrite get_normalized by (apply elem_of_keys_spread; by right).
      by rewrite get_spread_in.
    + rewrite keys_normalized, elem_of_keys_spread.
      rewrite Forall_forall in HsubO. intros [?|?]; auto.
Qed.

End ReturnedAnswers.

Lemma X2_witness_closed_input :
  Prompt.promptIfNeeded Prompt.closedInput Prompt.initial
    (Prompt.unlinkParams (VArr []) ["lib"]) (Some true)
  = Err PromptFailure.
Proof.
  refine (proj1 (X2_rejected_round_fails_the_call Prompt.closedInput Prompt.initial
                   (Prompt.unlinkParams (VArr []) ["lib"]) _ _ PromptFailure _ _) _);
    reflexivity.
Defined.

(** An option left undefined hides the argument of the same name. *)
Lemma X3_witness_shadowed_argument :
  ∃ r, Prompt.promptIfNeeded Prompt.closedInput Prompt.initial
         {| Prompt.args := Some [("network", VStr "ropsten")];
            Prompt.opts := Some [("network", VUndefined)];
            Prompt.props := Some (Catalog.inquirerQuestion "network" "Pick a network"
                                    "list" (VArr [VStr "ropsten"]));
            Prompt.defaults := None |} (Some false) = Ok r
       ∧ get r "network" = VUndefined.
Proof.
  destruct (X3_silent_call_reads_opts_over_args Prompt.closedInput Prompt.initial
              {| Prompt.args := Some [("network", VStr "ropsten")];
                 Prompt.opts := Some [("network", VUndefined)];
                 Prompt.props := Some (Catalog.inquirerQuestion "network" "Pick a network"
                                         "list" (VArr [VStr "ropsten"]));
                 Prompt.defaults := None |})
    as (r & Hr & Hopts & _).
  - repeat constructor. apply not_elem_of_nil.
  - repeat constructor. apply not_elem_of_nil.
  - repeat (apply Forall_cons; split; [vm_compute; by eexists|]). constructor.
  - exists r. split; [exact Hr|]. apply (Hopts "network"). left.
Defined.

Lemma X4_witness_unlink :
  ∃ r, Prompt.promptIfNeeded (Prompt.answerAll (VArr [VStr "lib"])) Prompt.initial
         (Prompt.unlinkParams (VArr []) ["lib"]) (Some true) = Ok r
       ∧ ∀ k, k ∈ keys r ↔ k ∈ ["dependencies"] ∨ k ∈ [].
Proof.
  destruct (X4_answer_set_has_the_declared_names (Prompt.answerAll (VArr [VStr "lib"]))
              Prompt.initial (Prompt.unlinkParams (VArr []) ["lib"]) (Some true)
              (answerAll_keys _) (answerAll_resolves _))
    as (r & Hr & _ & Hnames).
  - repeat constructor. apply not_elem_of_nil.
  - constructor.
  - apply Forall_cons. split; [vm_compute; by eexists | constructor].
  - apply Forall_cons. split; [by vm_compute | constructor].
  - exists r. by split.
Defined.

Lemma X6_witness_unlink :
  ∃ r, Prompt.promptIfNeeded (Prompt.answerAll (VArr [VStr "lib"])) Prompt.initial
         (Prompt.unlinkParams (VArr []) ["lib"]) (Some true) = Ok r
       ∧ get r "dependencies" = VArr [VStr "lib"].
Proof.
  destruct (X6_answers_are_normalized (Prompt.answerAll (VArr [VStr "lib"]))
              Prompt.initial (Prompt.unlinkParams (VArr []) ["lib"])
              [UnlinkCommand.dependenciesQuestion ["lib"]] []
              [("dependencies", VArr [VStr "lib"])] [])
    as (r & Hr & _ & Hargs).
  - repeat constructor. apply not_elem_of_nil.
  - constructor.
  - repeat constructor. apply not_elem_of_nil.
  - constructor.
  - apply Forall_cons. split; [vm_compute; by eexists | constructor].
  - reflexivity.
  - reflexivity.
  - reflexivity.
  - reflexivity.
  - repeat constructor.
  - constructor.
  - exists r. split; [exact Hr|].
    apply (Hargs "dependencies"); [left | apply not_elem_of_nil].
Defined.

(** ** The proxy resolver: the caller's address *)

Section ProxyReference.

Import Proxy.

Variable projectName : string.
Variable networkProxies : string -> list ProxyRecord.

(** X7.  Whatever the network file holds, the reference [proxyInfo]
    answers with is the caller's address as soon as one is given; with
    neither an address nor an alias the answer is the empty reference,
    a package name alone resolving nothing; and the answer has an
    [address] exactly when something is given and the network file has
    proxies for the query. *)
Theorem X7_given_address_is_the_reference info network :
  let query := {| package := packageName info;
                  contract := contractAlias info;
                  address := proxyAddress info |} in
  let result := proxyInfo projectName networkProxies info network in
  (truthy (proxyAddress info) = true →
   get result "proxyReference" = proxyAddress info)
  ∧ (truthy (proxyAddress info) = false → truthy (contractAlias info) = false →
     result = [("proxyReference", VUndefined); ("contractFullName", VUndefined)])
  ∧ ("address" ∈ keys result
     ↔ truthy (proxyAddress info) || truthy (contractAlias info) = true
       ∧ hasProxies networkProxies network query = true).
Proof.
  intros query result. subst result. unfold proxyInfo. fold query.
  destruct (truthy (proxyAddress info)) eqn:Haddr;
    destruct (truthy (contractAlias info)) eqn:Halias;
    destruct (hasProxies networkProxies network query) eqn:Hhas; simpl;
    unfold or_else; rewrite ?Haddr; simpl;
    (split; [done|]); (split; [done|]);
    rewrite ?elem_of_cons, ?elem_of_nil; split; intros H;
    repeat match goal with
           | H : _ ∨ _ |- _ => destruct H
           | H : _ ∧ _ |- _ => destruct H
           end; try done; auto.
Qed.

End ProxyReference.

Lemma X7_witness_address_wins :
  get (Proxy.proxyInfo "local"
         (fun _ => [ {| Proxy.package := VStr "local"; Proxy.contract := VStr "Foo";
                        Proxy.address := VStr "0xAA" |} ])
         {| Proxy.contractAlias := VStr "Foo"; Proxy.proxyAddress := VStr "0xCC";
            Proxy.packageName := VUndefined |} "mainnet") "proxyReference"
  = VStr "0xCC".
Proof.
  exact (proj1 (X7_given_address_is_the_reference "local"
                  (fun _ => [ {| Proxy.package := VStr "local";
                                 Proxy.contract := VStr "Foo";
                                 Proxy.address := VStr "0xAA" |} ])
                  {| Proxy.contractAlias := VStr "Foo"; Proxy.proxyAddress := VStr "0xCC";
                     Proxy.packageName := VUndefined |} "mainnet") eq_refl).
Defined.

(** ** The catalog: what its listings offer *)

Section CatalogListings.

Import Prompt Catalog Listings.

Variable getContractNames : list string.
Variable contractNamesAndAliases : list (string * string).
Variable dependencies : list string.
Variable contractAliases : string -> list string.

Abbreviation contractsList :=
  (contractsList getContractNames contractNamesAndAliases dependencies contractAliases).

Lemma length_append (s t : string) :
  String.length (s +:+ t) = String.length s + String.length t.
Proof. induction s as [|c s IH]; simpl; [done|]. by rewrite IH. Qed.

Lemma choicesOf_inquirerQuestion name message type items :
  choicesOf name (Questions (inquirerQuestion name message type (VArr items))) = items.
Proof. unfold choicesOf, inquirerQuestion. by rewrite lookup_singleton_eq. Qed.

Lemma contractsList_all name message type :
  contractsList name message type (Some "all")
  = Questions (inquirerQuestion name message type
      (VArr (localSection getContractNames
             ++ concat (map (fun dependencyName =>
                               dependencySection dependencyName
                                 (contractAliases dependencyName))
                            dependencies)))).
Proof.
  unfold Catalog.contractsList. simpl.
  rewrite section_of_build. do 5 f_equal.
  apply map_ext. intros dependencyName. apply section_of_dependency.
Qed.

Lemma selectable_app l1 l2 : selectable (l1 ++ l2) = selectable l1 ++ selectable l2.
Proof. apply List.filter_app. Qed.

Lemma selectable_names (f : string → string) names :
  selectable (map (fun n => VStr (f n)) names) = map (fun n => VStr (f n)) names.
Proof. induction names as [|n names IH]; simpl; [done|]. by rewrite IH. Qed.

Lemma selectable_localSection built : selectable (localSection built) = map VStr built.
Proof.
  destruct built as [|b built]; [done|]. unfold localSection.
  change (map VStr (b :: built)) with (map (fun n => VStr (id n)) (b :: built)).
  simpl. f_equal. apply (selectable_names id).
Qed.

Lemma selectable_dependencySection dependencyName aliases :
  selectable (dependencySection dependencyName aliases)
  = map (fun alias => VStr (dependencyName +:+ "/" +:+ alias)) aliases.
Proof.
  destruct aliases as [|b aliases]; [done|]. unfold dependencySection.
  simpl. f_equal. apply (selectable_names (fun alias => dependencyName +:+ "/" +:+ alias)).
Qed.

Lemma selectable_concat sections :
  selectable (concat sections) = concat (map selectable sections).
Proof.
  induction sections as [|s sections IH]; simpl; [done|].
  by rewrite selectable_app, IH.
Qed.

(** X8.  Separators aside, the listing of every contract offers what
    the listing of the built contracts offers (which is every built
    contract, as the build names them, also when no source is given),
    followed by every alias of every dependency as [dependency/alias]:
    no contract is lost or added. *)
Theorem X8_listing_of_all_extends_the_built_one name message type :
  choicesOf name (contractsList name message type None) = map VStr getContractNames
  ∧ contractsList name message type (Some "fromBuildDir")
    = contractsList name message type None
  ∧ selectable (choicesOf name (contractsList name message type (Some "all")))
    = choicesOf name (contractsList name message type None)
      ++ concat (map (fun dependencyName =>
                        map (fun alias => VStr (dependencyName +:+ "/" +:+ alias))
                            (contractAliases dependencyName))
                     dependencies).
Proof.
  assert (Hbuilt : choicesOf name (contractsList name message type None)
                   = map VStr getContractNames).
  { unfold Catalog.contractsList. simpl. apply choicesOf_inquirerQuestion. }
  split; [done|]. split; [done|].
  rewrite Hbuilt, contractsList_all, choicesOf_inquirerQuestion.
  rewrite selectable_app, selectable_localSection, selectable_concat, map_map.
  f_equal. f_equal. apply map_ext. intros d. apply selectable_dependencySection.
Qed.

(** X9.  The listing of the manifest's contracts has one choice per
    declared contract, in order, and the value a choice selects is the
    alias, whatever its label shows. *)
Theorem X9_manifest_choices_select_aliases name message type :
  let choices := choicesOf name (contractsList name message type (Some "fromLocal")) in
  map (field "value") choices = map (fun na => VStr na.2) contractNamesAndAliases
  ∧ length choices = length contractNamesAndAliases
  ∧ Forall2 (fun na choice => (na.1 = na.2 ↔ field "name" choice = field "value" choice))
            contractNamesAndAliases choices.
Proof.
  intros choices. subst choices.
  change (contractsList name message type (Some "fromLocal"))
    with (Questions (inquirerQuestion name message type
            (VArr (map (fun '(contractName, alias) =>
                          VObj [("name",
                                 VStr (if String.eqb contractName alias then alias
                                       else alias +:+ "[" +:+ contractName +:+ "]"));
                                ("value", VStr alias)])
                       contractNamesAndAliases)))).
  rewrite choicesOf_inquirerQuestion. split; [|split].
  - rewrite map_map. apply map_ext. by intros [n a].
  - by rewrite length_map.
  - induction contractNamesAndAliases as [|[n a] rest IH]; simpl; constructor; [|done].
    simpl. destruct (String.eqb_spec n a) as [->|Hne]; [done|].
    split; [done|]. intros [= Heq]. exfalso.
    assert (Hlen : String.length (a +:+ "[" +:+ n +:+ "]") = String.length a)
      by by rewrite Heq.
    rewrite !length_append in Hlen. simpl in Hlen. lia.
Qed.

End CatalogListings.

(** ** The catalog: methods and their arguments *)

Section CatalogMethods.

Import Prompt Catalog Asking.

Variable fromContractFullName : string -> Value * Value.
Variable hasContract : Value -> Value -> bool.
Variable methodsFromAst : Value -> Value -> list Method.

Abbreviation contractMethods :=
  (contractMethods fromContractFullName hasContract methodsFromAst).
Abbreviation methodsList :=
  (methodsList fromContractFullName hasContract methodsFromAst).
Abbreviation argsList :=
  (argsList fromContractFullName hasContract methodsFromAst).
Abbreviation initArgsForPrompt :=
  (initArgsForPrompt fromContractFullName hasContract methodsFromAst).

Implicit Types (m : Method) (id k : string).

Lemma find_identifies_unique contractFullName id m :
  m ∈ contractMethods contractFullName →
  identifies id m = true →
  (∀ m', m' ∈ contractMethods contractFullName → identifies id m' = true → m' = m) →
  List.find (identifies id) (contractMethods contractFullName) = Some m.
Proof.
  intros Hin Hm Hunique.
  destruct (List.find _ _) as [found|] eqn:Hfound.
  - apply find_some in Hfound as [Hf Hid]. apply list_elem_of_In in Hf.
    by rewrite (Hunique found Hf Hid).
  - apply list_elem_of_In in Hin. by rewrite (find_none _ _ Hfound m Hin) in Hm.
Qed.

(** X11.  A method picked from [methodsList] is found again by
    [argsList]: every choice stands for a method of the contract with
    the same name and selector, and when its selector is the selector or
    name of no other method, [argsList] called with it answers with that
    method's input names. *)
Theorem X11_listed_method_is_found_by_its_selector contractFullName choice selector :
  choice ∈ methodsList contractFullName →
  mc_selector choice = Some selector →
  (∀ m m', m ∈ contractMethods contractFullName →
           m' ∈ contractMethods contractFullName →
           m_selector m = Some selector →
           m_selector m' = Some selector ∨ m_name m' = selector → m' = m) →
  ∃ m, m ∈ contractMethods contractFullName
       ∧ m_name m = mc_name choice
       ∧ m_selector m = Some selector
       ∧ argsList contractFullName selector = map i_name (m_inputs m).
Proof.
  intros Hchoice Hsel Hunique. unfold Catalog.methodsList in Hchoice.
  apply list_elem_of_In, in_map_iff in Hchoice as (m & <- & Hm).
  apply list_elem_of_In in Hm. simpl in Hsel.
  exists m. repeat (split; [done|]).
  unfold Catalog.argsList. rewrite (find_identifies_unique contractFullName selector m).
  - done.
  - done.
  - apply identifies_true. by left.
  - intros m' Hm' Hid. apply (Hunique m m' Hm Hm' Hsel). by apply identifies_true.
Qed.

Lemma undefined_fields names : ∀ acc : Obj,
  let o := fold_left (fun accum current => spread accum current)
             (map (fun n => [(n, VUndefined)]) names) acc in
  (wf acc → wf o)
  ∧ (∀ k, k ∈ keys o ↔ k ∈ keys acc ∨ k ∈ names)
  ∧ ((∀ k, get acc k = VUndefined) → ∀ k, get o k = VUndefined).
Proof.
  induction names as [|n names IH]; intros acc; simpl.
  - split; [done|]. split; [|done]. intros k. rewrite elem_of_nil. tauto.
  - destruct (IH (spread acc [(n, VUndefined)])) as (Hwf & Hkeys & Hget).
    change (spread acc [(n, VUndefined)]) with (set acc n VUndefined) in *.
    split; [|split].
    + intros Hacc. by apply Hwf, wf_set.
    + intros k. rewrite Hkeys, elem_of_keys_set, elem_of_cons. tauto.
    + intros Hall. apply Hget. intros k. rewrite get_set.
      by destruct (String.eqb n k).
Qed.

Lemma initArgsForPrompt_fields contractFullName id :
  let o := initArgsForPrompt contractFullName id in
  wf o
  ∧ (∀ k, k ∈ keys o ↔ k ∈ argsList contractFullName id)
  ∧ (∀ k, get o k = VUndefined).
Proof.
  unfold Catalog.initArgsForPrompt, Catalog.argsList.
  destruct (List.find _ _) as [method|].
  - pose proof (undefined_fields (map i_name (m_inputs method)) []) as H.
    rewrite map_map in H. simpl in H. destruct H as (Hwf & Hkeys & Hget).
    split; [apply Hwf; constructor|]. split; [|by apply Hget].
    intros k. rewrite Hkeys, elem_of_nil. tauto.
  - simpl. split; [constructor|]. split; [done|done].
Qed.

(** X12.  The object [initArgsForPrompt] prepares has as names exactly
    the input names [argsList] answers with, each once and each
    undefined; inputs that share a name (or have none) share one
    property, so the object can have fewer names than the method has
    inputs, and has as many when the input names are distinct. *)
Theorem X12_initArgsForPrompt_declares_the_inputs contractFullName id :
  let o := initArgsForPrompt contractFullName id in
  wf o
  ∧ (∀ k, k ∈ keys o ↔ k ∈ argsList contractFullName id)
  ∧ (∀ k, get o k = VUndefined)
  ∧ length (keys o) ≤ length (argsList contractFullName id)
  ∧ (NoDup (argsList contractFullName id) →
     length (keys o) = length (argsList contractFullName id)).
Proof.
  intros o. destruct (initArgsForPrompt_fields contractFullName id)
    as (Hwf & Hkeys & Hget). fold o in Hwf, Hkeys, Hget.
  repeat (split; [done|]). split.
  - apply submseteq_length, NoDup_submseteq; [done|]. intros k. by rewrite Hkeys.
  - intros Hnd. apply Permutation_length, NoDup_Permutation; done.
Qed.

Lemma bool_filter_length {A} (f : A → bool) (l : list A) :
  length (List.filter f l) ≤ length l.
Proof. induction l as [|x l IH]; simpl; [done|]. destruct (f x); simpl; lia. Qed.

Lemma Forall2_both_ways {A B} (R : A → B → Prop) l r :
  Forall2 R l r →
  (∀ x, x ∈ l → ∃ y, y ∈ r ∧ R x y) ∧ (∀ y, y ∈ r → ∃ x, x ∈ l ∧ R x y).
Proof.
  induction 1 as [|x y l r Hxy _ [IHl IHr]].
  - split; intros ? ?%elem_of_nil; done.
  - split.
    + intros x' [->|Hx]%elem_of_cons.
      * exists y. split; [left | done].
      * destruct (IHl x' Hx) as (y' & ? & ?). exists y'. split; [by right | done].
    + intros y' [->|Hy]%elem_of_cons.
      * exists x. split; [left | done].
      * destruct (IHr y' Hy) as (x' & ? & ?). exists x'. split; [by right | done].
Qed.

(** X13.  Handed to the resolver as [args], the object of
    [initArgsForPrompt] has every one of its names asked about: the
    question set holds a question for each input name whose entry in
    [props] does not have an empty list of choices, once per name, and
    no other question. *)
Theorem X13_every_input_is_asked_about contractFullName id defaults props :
  let o := initArgsForPrompt contractFullName id in
  covers props (argsList contractFullName id) →
  ∃ qa, argsQuestions o defaults props = Ok qa
        ∧ (∀ k, k ∈ argsList contractFullName id → offers props k = true →
                ∃ q, q ∈ qa ∧ builtFrom defaults props k q)
        ∧ (∀ q, q ∈ qa →
                ∃ k, k ∈ argsList contractFullName id ∧ offers props k = true
                     ∧ builtFrom defaults props k q)
        ∧ length qa ≤ length (argsList contractFullName id).
Proof.
  intros o Hcov.
  destruct (initArgsForPrompt_fields contractFullName id) as (Hwf & Hkeys & Hget).
  fold o in Hwf, Hkeys, Hget.
  assert (Hcov' : covers props (keys o)).
  { apply (covers_incl _ _ _ Hcov). intros k. by rewrite Hkeys. }
  assert (Hask : argsToAsk o props = List.filter (offers props) (keys o)).
  { unfold argsToAsk. apply filter_ext. intros k. by rewrite Hget. }
  destruct (questions_builtFrom defaults props (argsToAsk o props)) as (qa & Hqa & Hall).
  { by apply covers_filter. }
  exists qa. split_and!.
  - unfold argsQuestions. rewrite argsPending_toAsk by done. simpl. exact Hqa.
  - intros k Hk Hoff. apply (proj1 (Forall2_both_ways _ _ _ Hall)).
    rewrite Hask, elem_of_bool_filter, Hkeys. done.
  - intros q Hq. destruct (proj2 (Forall2_both_ways _ _ _ Hall) q Hq) as (k & Hk & Hb).
    rewrite Hask, elem_of_bool_filter, Hkeys in Hk. destruct Hk. by exists k.
  - rewrite <- (Forall2_length _ _ _ Hall), Hask.
    etransitivity; [apply bool_filter_length|].
    apply submseteq_length, NoDup_submseteq; [done|]. intros k. by rewrite Hkeys.
Qed.

End CatalogMethods.

Lemma X11_witness_initialize :
  ∃ m, m ∈ Catalog.contractMethods Catalog.bareAlias Catalog.onlyToken
             Catalog.tokenMethods "Token"
       ∧ Catalog.m_name m = "initialize"
       ∧ Catalog.m_selector m = Some "initialize(uint256)"
       ∧ Catalog.argsList Catalog.bareAlias Catalog.onlyToken Catalog.tokenMethods
           "Token" "initialize(uint256)"
         = map Catalog.i_name (Catalog.m_inputs m).
Proof.
  apply (X11_listed_method_is_found_by_its_selector
           Catalog.bareAlias Catalog.onlyToken Catalog.tokenMethods "Token"
           {| Catalog.mc_label := "[Initializable] initialize(amount: uint256)";
              Catalog.mc_name := "initialize";
              Catalog.mc_selector := Some "initialize(uint256)" |}).
  - right. left.
  - reflexivity.
  - intros m m' Hm Hm' Hsel Hid.
    apply elem_of_cons in Hm as [->|Hm]; [discriminate|].
    apply list_elem_of_singleton in Hm as ->.
    apply elem_of_cons in Hm' as [->|Hm'].
    + destruct Hid; discriminate.
    + by apply list_elem_of_singleton in Hm'.
Defined.

Lemma X12_witness_transfer :
  length (keys (Catalog.initArgsForPrompt Catalog.bareAlias Catalog.onlyToken
                  Catalog.tokenMethods "Token" "transfer"))
  = length (Catalog.argsList Catalog.bareAlias Catalog.onlyToken Catalog.tokenMethods
              "Token" "transfer").
Proof.
  apply (X12_initArgsForPrompt_declares_the_inputs
           Catalog.bareAlias Catalog.onlyToken Catalog.tokenMethods "Token" "transfer").
  repeat constructor.
  - rewrite list_elem_of_singleton. discriminate.
  - apply not_elem_of_nil.
Defined.

Lemma X13_witness_transfer :
  let props :=
    Some (Catalog.inquirerQuestion "to" "Recipient" "input" VUndefined
          ∪ Catalog.inquirerQuestion "value" "Amount" "input" VUndefined) in
  ∃ qa, Prompt.argsQuestions
          (Catalog.initArgsForPrompt Catalog.bareAlias Catalog.onlyToken
             Catalog.tokenMethods "Token" "transfer") None props = Ok qa
        ∧ length qa ≤ 2.
Proof.
  intros props.
  destruct (X13_every_input_is_asked_about Catalog.bareAlias Catalog.onlyToken
              Catalog.tokenMethods "Token" "transfer" None props)
    as (qa & Hqa & _ & _ & Hlen).
  - repeat (apply Forall_cons; split; [vm_compute; by eexists|]). constructor.
  - exists qa. by split.
Defined.

(** ** The network option *)

Section NetworkOption.

Import Prompt Catalog Listings Asking.

Variable prompt : list Question -> Result Obj.
Variable getNetworkNamesFromConfig : list string.

Abbreviation networksList := (networksList getNetworkNamesFromConfig).

Local Arguments entry : simpl never.
Local Arguments Listings.networksList : simpl never.

Lemma entry_networksList type :
  entry (Some (networksList type)) "network"
  = Some {| qs_name := None;
            qs_type := VStr type;
            qs_message := VStr "Select a network from the network list";
            qs_choices := VArr (map VStr getNetworkNamesFromConfig);
            qs_default := VUndefined;
            qs_normalize := None |}.
Proof. unfold Listings.networksList, inquirerQuestion, entry. apply lookup_singleton_eq. Qed.

Lemma covers_networksList type : covers (Some (networksList type)) ["network"].
Proof.
  apply Forall_cons. split; [|constructor]. rewrite entry_networksList. by eexists.
Qed.

Lemma normalizeOf_networksList type v :
  normalizeOf (Some (networksList type)) "network" v = v.
Proof. unfold normalizeOf. by rewrite entry_networksList. Qed.

Lemma mapM_singleton {A B} (f : A → Result B) (x : A) :
  mapM f [x] = Outcome.bind (f x) (fun y => Ok [y]).
Proof. simpl. by destruct (f x). Qed.

Lemma promptFor_networksList type defaults :
  promptFor "network" defaults (Some (networksList type))
  = Ok (networkQuestion getNetworkNamesFromConfig type defaults).
Proof.
  unfold promptFor. rewrite (prop_read_entry _ _ _ (entry_networksList type)).
  unfold networkQuestion, or_else. simpl. by destruct (truthy _).
Qed.

(** X10.  With the question of [networksList] as [props], the option
    [network] resolves as follows.  A network that is given comes back
    as it is, nothing being asked; so does an undefined one when the
    configuration names no network.  An undefined one is otherwise asked
    about in interactive mode, in a single question that offers the
    configured networks, and the answer is what comes back. *)
Theorem X10_network_option_resolves st type v defaults interactive :
  let params := {| args := None;
                   opts := Some [("network", v)];
                   props := Some (networksList type);
                   defaults := defaults |} in
  (prompt [] = Ok [] →
   v ≠ VUndefined ∨ getNetworkNamesFromConfig = [] →
   optsQuestions [("network", v)] defaults (Some (networksList type)) = Ok []
   ∧ promptIfNeeded prompt st params interactive = Ok [("network", v)])
  ∧ (v = VUndefined → getNetworkNamesFromConfig ≠ [] →
     optsQuestions [("network", v)] defaults (Some (networksList type))
     = Ok [networkQuestion getNetworkNamesFromConfig type defaults]
     ∧ ∀ answer,
         prompt [] = Ok [] →
         prompt [networkQuestion getNetworkNamesFromConfig type defaults]
         = Ok [("network", answer)] →
         promptIfNeeded prompt st params (Some true) = Ok [("network", answer)]).
Proof.
  intros params.
  assert (Hwf : wf [("network", v)]).
  { repeat constructor. apply not_elem_of_nil. }
  pose proof (covers_networksList type) as Hcov.
  assert (Hpending : optsPending [("network", v)] (Some (networksList type))
                     = Ok (optsToAsk [("network", v)] (Some (networksList type))))
    by by apply optsPending_toAsk.
  split.
  - intros Hnil Hgiven.
    assert (Hnone : optsToAsk [("network", v)] (Some (networksList type)) = []).
    { unfold optsToAsk, offers. simpl. rewrite entry_networksList. simpl.
      destruct Hgiven as [Hv| ->]; [by destruct v | simpl; by rewrite andb_false_r]. }
    assert (Hq : optsQuestions [("network", v)] defaults (Some (networksList type)) = Ok []).
    { unfold optsQuestions. by rewrite Hpending, Hnone. }
    split; [done|]. unfold promptIfNeeded. simpl. rewrite Hq. simpl.
    destruct (match interactive with Some b => b | None => _ end).
    + unfold answersFor at 1. rewrite Hnil. simpl.
      rewrite (answersFor_asked prompt [("network", v)] [] _ [])
        by (try done; constructor).
      simpl. by rewrite normalizeOf_networksList.
    + unfold answersFor at 1. simpl.
      rewrite answersFor_silent by done. simpl. by rewrite normalizeOf_networksList.
  - intros -> Hnames.
    assert (Hq : optsQuestions [("network", VUndefined)] defaults (Some (networksList type))
                 = Ok [networkQuestion getNetworkNamesFromConfig type defaults]).
    { assert (Hask : optsToAsk [("network", VUndefined)] (Some (networksList type))
                     = ["network"]).
      { unfold optsToAsk, offers. simpl. rewrite entry_networksList. simpl.
        by destruct getNetworkNamesFromConfig. }
      unfold optsQuestions. rewrite Hpending, Hask.
      change (Outcome.bind (Ok ["network"]) ?k) with (k ["network"]).
      by rewrite mapM_singleton, promptFor_networksList. }
    split; [done|]. intros answer Hnil Hanswer.
    unfold promptIfNeeded. simpl. rewrite Hq. simpl.
    unfold answersFor at 1. rewrite Hnil. simpl.
    rewrite (answersFor_asked prompt [("network", VUndefined)] _ _ [("network", answer)])
      by (try done; repeat constructor).
    simpl. by rewrite normalizeOf_networksList.
Qed.

End NetworkOption.

Lemma X10_witness_given_network :
  Prompt.promptIfNeeded Prompt.acceptDefaults Prompt.initial
    {| Prompt.args := None;
       Prompt.opts := Some [("network", VStr "ropsten")];
       Prompt.props := Some (Listings.networksList ["ropsten"; "mainnet"] "list");
       Prompt.defaults := None |} None
  = Ok [("network", VStr "ropsten")].
Proof.
  refine (proj2 (proj1 (X10_network_option_resolves Prompt.acceptDefaults
                          ["ropsten"; "mainnet"] Prompt.initial "list"
                          (VStr "ropsten") None None) eq_refl _)).
  by left.
Defined.

(** ** The listing of the proxies *)

Section ProxyListing.

Import Listings.

Implicit Types (k line : string) (proxies : list StoredProxy) (c : ProxyChoice).

Lemma elem_of_firstSeen xs : ∀ seen k,
  k ∈ firstSeen seen xs ↔ k ∈ xs ∧ k ∉ seen.
Proof.
  induction xs as [|x xs IH]; intros seen k; simpl.
  - rewrite elem_of_nil. tauto.
  - case_bool_decide as Hx.
    + rewrite IH, elem_of_cons. split; [tauto|].
      intros [[->|?] ?]; [done | tauto].
    + rewrite elem_of_cons, IH, !elem_of_cons.
      destruct (decide (k = x)) as [->|Hne]; [tauto|]. tauto.
Qed.

Lemma NoDup_firstSeen xs : ∀ seen, NoDup (firstSeen seen xs).
Proof.
  induction xs as [|x xs IH]; intros seen; simpl; [constructor|].
  case_bool_decide; [done|]. apply NoDup_cons. split; [|done].
  rewrite elem_of_firstSeen, elem_of_cons. tauto.
Qed.

Lemma bool_filter_partition {A} (f : A → bool) (l : list A) :
  List.filter f l ++ List.filter (fun x => negb (f x)) l ≡ₚ l.
Proof.
  induction l as [|x l IH]; simpl; [done|].
  destruct (f x); simpl.
  - by rewrite IH.
  - by rewrite <- Permutation_middle, IH.
Qed.

Lemma ownKeys_Permutation created : ownKeys created ≡ₚ created.
Proof.
  unfold ownKeys. rewrite merge_sort_Permutation. apply bool_filter_partition.
Qed.

(** Keys that are no array indices stay in the order of their creation. *)
Lemma ownKeys_names created :
  Forall (fun key => isArrayIndex key = false) created → ownKeys created = created.
Proof.
  intros H. unfold ownKeys. rewrite (filter_nothing _ _ H). simpl.
  induction H as [|x l Hx _ IH]; simpl; [done|]. by rewrite Hx, IH.
Qed.

Lemma elem_of_groupKeys proxies k :
  k ∈ groupKeys proxies ↔ ∃ proxy, proxy ∈ proxies ∧ sp_package proxy = k.
Proof.
  unfold groupKeys. rewrite ownKeys_Permutation, elem_of_firstSeen.
  rewrite list_elem_of_fmap, elem_of_nil. split.
  - intros [(p & -> & Hp) _]. by exists p.
  - intros (p & Hp & <-). split; [by exists p | tauto].
Qed.

Lemma elem_of_uniqByName (f : StoredProxy → ProxyChoice) (g : StoredProxy → bool)
    proxies : ∀ seen c,
  c ∈ uniqByName seen (map f (List.filter g proxies))
  ↔ ∃ before proxy after,
      proxies = before ++ proxy :: after
      ∧ g proxy = true ∧ c = f proxy ∧ (pc_name c ∉ seen)
      ∧ Forall (fun q => g q = false ∨ pc_name (f q) ≠ pc_name c) before.
Proof.
  induction proxies as [|x proxies IH]; intros seen c.
  { simpl. rewrite elem_of_nil. split; [done|].
    intros (before & p & after & Hl & _). by destruct before. }
  assert (Hskip : ∀ seen' : list string,
            (g x = false ∨ pc_name (f x) ≠ pc_name c) →
            (pc_name c ∉ seen' → pc_name c ∉ seen) →
            (∃ before proxy after,
               proxies = before ++ proxy :: after
               ∧ g proxy = true ∧ c = f proxy ∧ (pc_name c ∉ seen')
               ∧ Forall (fun q => g q = false ∨ pc_name (f q) ≠ pc_name c) before) →
            ∃ before proxy after,
              x :: proxies = before ++ proxy :: after
              ∧ g proxy = true ∧ c = f proxy ∧ (pc_name c ∉ seen)
              ∧ Forall (fun q => g q = false ∨ pc_name (f q) ≠ pc_name c) before).
  { intros seen' Hx Hseen (before & p & after & -> & Hg & Hc & Hn & Hall).
    exists (x :: before), p, after.
    split_and!; [done | done | done | by apply Hseen | by constructor]. }
  simpl. destruct (g x) eqn:Hgx; simpl.
  - case_bool_decide as Hx.
    + rewrite IH. split.
      * intros H. apply (Hskip seen); [|done|done].
        right. destruct H as (_ & p & _ & _ & _ & -> & Hn & _). congruence.
      * intros (before & p & after & Hl & Hg & Hc & Hn & Hall).
        destruct before as [|b before]; simpl in Hl; injection Hl as <- ->.
        { congruence. }
        apply Forall_cons in Hall as [_ Hall]. by exists before, p, after.
    + rewrite elem_of_cons, IH. split.
      * intros [->|H].
        { exists [], x, proxies. split_and!; [done | done | done | done | constructor]. }
        apply (Hskip (pc_name (f x) :: seen)); [| |done].
        { right. destruct H as (_ & p & _ & _ & _ & -> & Hn & _).
          intros Heq. apply Hn. rewrite Heq. left. }
        intros Hn ?. apply Hn. by right.
      * intros (before & p & after & Hl & Hg & Hc & Hn & Hall).
        destruct before as [|b before]; simpl in Hl; injection Hl as <- ->.
        { by left. }
        apply Forall_cons in Hall as [Hb Hall]. right.
        exists before, p, after. split_and!; [done | done | done | | done].
        destruct Hb as [?|?]; [congruence|].
        rewrite not_elem_of_cons. split; [congruence | done].
  - rewrite IH. split.
    + intros H. apply (Hskip seen); [by left|done|done].
    + intros (before & p & after & Hl & Hg & Hc & Hn & Hall).
      destruct before as [|b before]; simpl in Hl; injection Hl as <- ->.
      { congruence. }
      apply Forall_cons in Hall as [_ Hall]. by exists before, p, after.
Qed.

Lemma NoDup_uniqByName choices : ∀ seen,
  NoDup (map pc_name (uniqByName seen choices))
  ∧ ∀ c, c ∈ uniqByName seen choices → pc_name c ∉ seen.
Proof.
  induction choices as [|x choices IH]; intros seen; simpl.
  - split; [constructor|]. intros c. by rewrite elem_of_nil.
  - case_bool_decide as Hx; [apply IH|].
    destruct (IH (pc_name x :: seen)) as [Hnd Hfresh]. split.
    + simpl. apply NoDup_cons. split; [|done].
      intros (c & Hc & Hin)%list_elem_of_fmap. apply (Hfresh c Hin).
      rewrite Hc. left.
    + intros c [->|Hin]%elem_of_cons; [done|].
      specialize (Hfresh c Hin). intros ?. apply Hfresh. by right.
Qed.

End ProxyListing.

Section ProxyListingFacts.

Import Listings.

Variable projectName : string.
Variable storedProxies : string -> list StoredProxy.

Abbreviation proxiesList := (proxiesList projectName storedProxies).

Implicit Types (k line network : string) (proxies : list StoredProxy).
Implicit Types (c : ProxyChoice) (answer : Obj).

Lemma dividers_picks (choices : list ProxyChoice) : dividers (map Pick choices) = [].
Proof. induction choices as [|c choices IH]; [done | exact IH]. Qed.

Lemma dividers_sections byAddress proxies packages :
  dividers (concat (map (packageSection projectName byAddress proxies) packages))
  = map (dividerLine projectName) packages.
Proof.
  induction packages as [|k packages IH]; [done|].
  simpl. unfold dividers in *. rewrite omap_app, IH. simpl.
  by rewrite (dividers_picks _).
Qed.

Lemma elem_of_sections (e : Entry) byAddress proxies packages :
  e ∈ concat (map (packageSection projectName byAddress proxies) packages)
  ↔ ∃ k, k ∈ packages ∧ e ∈ packageSection projectName byAddress proxies k.
Proof.
  rewrite list_elem_of_In, in_concat. split.
  - intros (section & Hs & He). apply in_map_iff in Hs as (k & <- & Hk).
    exists k. by rewrite !list_elem_of_In.
  - intros (k & Hk & He). exists (packageSection projectName byAddress proxies k).
    rewrite in_map_iff. split; [|by apply list_elem_of_In].
    exists k. by rewrite <- list_elem_of_In.
Qed.

Lemma pick_in_section c byAddress proxies k :
  Pick c ∈ packageSection projectName byAddress proxies k
  ↔ c ∈ uniqByName [] (map (proxyChoice projectName byAddress k) (groupOf k proxies)).
Proof.
  unfold packageSection. rewrite elem_of_cons, list_elem_of_fmap. split.
  - intros [?|(c' & [= ->] & ?)]; done.
  - intros ?. right. by exists c.
Qed.

(** X14.  [proxiesList] puts one separator per package that has a
    proxy in the network file: its separators are, up to their order,
    the lines of the distinct packages, the line of the project's own
    package reading [Local contracts]; a network without proxies gives
    the empty list. *)
Theorem X14_one_separator_per_package network answer :
  dividers (proxiesList network answer)
  ≡ₚ map (dividerLine projectName)
         (firstSeen [] (map sp_package (storedProxies network)))
  ∧ NoDup (firstSeen [] (map sp_package (storedProxies network)))
  ∧ (∀ k, k ∈ firstSeen [] (map sp_package (storedProxies network))
          ↔ ∃ proxy, proxy ∈ storedProxies network ∧ sp_package proxy = k)
  ∧ dividerLine projectName projectName = " = Local contracts ="
  ∧ (storedProxies network = [] → proxiesList network answer = []).
Proof.
  split_and!.
  - unfold Listings.proxiesList. rewrite dividers_sections.
    unfold groupKeys. by rewrite ownKeys_Permutation.
  - apply NoDup_firstSeen.
  - intros k. rewrite elem_of_firstSeen, list_elem_of_fmap, elem_of_nil. split.
    + intros [(p & -> & Hp) _]. by exists p.
    + intros (p & Hp & <-). split; [by exists p | tauto].
  - unfold dividerLine. by rewrite eqb_refl_s.
  - intros Hnone. unfold Listings.proxiesList. by rewrite Hnone.
Qed.

(** X15.  The choices of [proxiesList] are the proxies of the network
    file that come first, in file order, among those of their package
    listed under their name: a choice is in the list exactly when it is
    built from such a proxy.  A later proxy of the same package with the
    same name is not listed (by contract name, every further instance of
    a contract is hidden behind the first). *)
Theorem X15_first_proxy_of_a_name_is_listed network answer c :
  let byAddress := strict_eq (get answer "pickProxyBy") (VStr "byAddress") in
  Pick c ∈ proxiesList network answer
  ↔ ∃ before proxy after,
      storedProxies network = before ++ proxy :: after
      ∧ c = proxyChoice projectName byAddress (sp_package proxy) proxy
      ∧ Forall (fun q => sp_package q ≠ sp_package proxy
                         ∨ displayName byAddress q ≠ displayName byAddress proxy)
               before.
Proof.
  intros byAddress. unfold Listings.proxiesList. fold byAddress.
  rewrite elem_of_sections. split.
  - intros (k & _ & Hc). apply pick_in_section in Hc. unfold groupOf in Hc.
    apply elem_of_uniqByName in Hc as (before & p & after & Hl & Hg & -> & _ & Hall).
    apply String.eqb_eq in Hg as <-.
    exists before, p, after. split_and!; [done | done |].
    apply (Forall_impl _ _ _ Hall). intros q [Hq|Hq].
    + left. by apply String.eqb_neq.
    + right. by destruct byAddress.
  - intros (before & p & after & Hl & -> & Hall).
    exists (sp_package p). split.
    + apply elem_of_groupKeys. exists p. split; [|done].
      rewrite Hl, elem_of_app, elem_of_cons. tauto.
    + apply pick_in_section. unfold groupOf.
      apply elem_of_uniqByName. exists before, p, after.
      split_and!; [done | apply eqb_refl_s | done | apply not_elem_of_nil |].
      apply (Forall_impl _ _ _ Hall). intros q [Hq|Hq].
      * left. by apply String.eqb_neq.
      * right. by destruct byAddress.
Qed.

(** X16.  When no package name is the decimal writing of an array
    index, the sections of [proxiesList] come in the order in which the
    packages first occur in the network file.  (The keys of the grouping
    object are enumerated with array indices first, so a package named
    by such a number would be moved to the front.) *)
Theorem X16_sections_follow_first_occurrence network answer :
  Forall (fun proxy => isArrayIndex (sp_package proxy) = false)
         (storedProxies network) →
  dividers (proxiesList network answer)
  = map (dividerLine projectName)
        (firstSeen [] (map sp_package (storedProxies network))).
Proof.
  intros Hnames. unfold Listings.proxiesList. rewrite dividers_sections.
  unfold groupKeys. rewrite ownKeys_names; [done|].
  apply Forall_forall. intros k [(p & -> & Hp)%list_elem_of_fmap _]%elem_of_firstSeen.
  rewrite Forall_forall in Hnames. by apply Hnames.
Qed.

End ProxyListingFacts.

(** By contract name, the second [Vault] of [lib] is not listed: the
    choice carries the address of the first. *)
Lemma X15_witness_first_vault :
  Listings.Pick {| Listings.pc_name := "Vault";
                   Listings.pc_address := "0x01";
                   Listings.pc_contractFullName := "lib/Vault";
                   Listings.pc_proxyReference := "lib/Vault" |}
  ∈ Listings.proxiesList "app" Listings.sampleProxies "mainnet" []
  ∧ ¬ (Listings.Pick {| Listings.pc_name := "Vault";
                        Listings.pc_address := "0x03";
                        Listings.pc_contractFullName := "lib/Vault";
                        Listings.pc_proxyReference := "lib/Vault" |}
       ∈ Listings.proxiesList "app" Listings.sampleProxies "mainnet" []).
Proof.
  split.
  - apply (X15_first_proxy_of_a_name_is_listed "app" Listings.sampleProxies "mainnet" []).
    exists [], {| Listings.sp_package := "lib"; Listings.sp_contract := "Vault";
                  Listings.sp_address := "0x01" |}, (tail (Listings.sampleProxies "mainnet")).
    split_and!; [reflexivity | reflexivity | constructor].
  - intros (before & p & after & Hl & Hc & Hall)%X15_first_proxy_of_a_name_is_listed.
    destruct before as [|b0 [|b1 [|b2 [|b3 before]]]]; simpl in Hl;
      try (injection Hl as <- <-; discriminate Hc);
      try (destruct after; discriminate Hl).
    injection Hl as <- <- <- <-.
    apply Forall_cons in Hall as [[H|H] _]; by apply H.
Defined.

Lemma X16_witness_sample :
  Listings.dividers (Listings.proxiesList "app" Listings.sampleProxies "mainnet" [])
  = [" = lib ="; " = Local contracts ="].
Proof.
  apply (X16_sections_follow_first_occurrence "app" Listings.sampleProxies "mainnet" []).
  by repeat constructor.
Defined.

(** Package names that are array indices come first, in ascending
    order, whatever their place in the network file. *)
Example numbered_packages_come_first :
  Listings.dividers
    (Listings.proxiesList "app"
       (fun _ => [ {| Listings.sp_package := "lib"; Listings.sp_contract := "A";
                      Listings.sp_address := "0x01" |};
                   {| Listings.sp_package := "10"; Listings.sp_contract := "B";
                      Listings.sp_address := "0x02" |};
                   {| Listings.sp_package := "2"; Listings.sp_contract := "C";
                      Listings.sp_address := "0x03" |} ])
       "mainnet" [])
  = [" = 2 ="; " = 10 ="; " = lib ="].
Proof. reflexivity. Qed.

(** ** The only failure left once [props] covers the names *)

Section ResolverRejections.

Import Prompt.

Variable prompt : list Question -> Result Obj.
Hypothesis prompt_keys : answersItsQuestions prompt.

Implicit Types (props : option (gmap string QuestionSpec)) (k name : string).
Implicit Types (inputs answers : Obj).

(** Where no name declares a [normalize], the final loop of
    [answersFor] leaves every value as it is. *)
Lemma normalized_noNormalize props inputs :
  noNormalize props (keys inputs) → normalized props inputs = inputs.
Proof.
  unfold noNormalize, normalized, normalizeOf.
  induction inputs as [|[k v] inputs IH]; simpl; [done|].
  intros [Hk Hrest]%Forall_cons. rewrite (IH Hrest). f_equal.
  destruct (entry props k) as [s|]; [by rewrite Hk | done].
Qed.

Lemma noNormalize_spread props inputs answers :
  noNormalize props (keys inputs) →
  Forall (fun k => k ∈ keys inputs) (keys answers) →
  noNormalize props (keys (spread inputs answers)).
Proof.
  unfold noNormalize. rewrite !Forall_forall. intros Hn Hsub k.
  rewrite elem_of_keys_spread.
  intros [Hk|Hk]; [by apply Hn | apply Hn; by apply (Hsub k)].
Qed.

(** A round that resolves, over a batch without [normalize]: the
    answers are merged over the inputs and nothing else happens. *)
Lemma answersFor_round inputs questions props answers :
  wf inputs → covers props (keys inputs) → noNormalize props (keys inputs) →
  prompt questions = Ok answers →
  Forall (fun k => k ∈ keys inputs) (keys answers) →
  answersFor prompt inputs questions props true = Ok (spread inputs answers).
Proof.
  intros Hwf Hcov Hn Hans Hsub.
  rewrite (answersFor_asked prompt inputs questions props answers) by done.
  f_equal. apply normalized_noNormalize. by apply noNormalize_spread.
Qed.

(** X17.  Take a call whose [props] has an entry for every name, with
    no [normalize] declared under any of them (so that no code of the
    caller runs in the final loop), questions asked under the names
    they are built for, and an input primitive that answers the
    questions it is asked.  Both question sets are built, and the
    non-interactive call returns the values passed, [opts] over [args].
    The call fails exactly in interactive mode when one of its own two
    rounds rejects: the round over the questions of [args], or, once
    that one resolved, the round over the questions of [opts]; and it
    fails with the error of that round. *)
Theorem X17_covered_call_fails_only_with_its_rounds st params interactive :
  let a := default [] (args params) in
  let o := default [] (opts params) in
  let p := props params in
  let mode :=
    match interactive with
    | None => DEFAULT_INTERACTIVE_STATUS st
    | Some b => b
    end in
  wf a → wf o → covers p (keys a ++ keys o) → askedByKey p (keys a ++ keys o) →
  noNormalize p (keys a ++ keys o) →
  ∃ qa qo,
    argsQuestions a (defaults params) p = Ok qa
    ∧ optsQuestions o (defaults params) p = Ok qo
    ∧ promptIfNeeded prompt st params (Some false) = Ok (spread a o)
    ∧ ∀ e, promptIfNeeded prompt st params interactive = Err e
           ↔ mode = true
             ∧ (prompt qa = Err e
                ∨ (∃ ansA, prompt qa = Ok ansA) ∧ prompt qo = Err e).
Proof.
  intros a o p mode Hwa Hwo [Hca Hco]%covers_app [Hka Hko]%Forall_app
    [Hna Hno]%Forall_app.
  destruct (argsQuestions_asked a (defaults params) p Hca Hka) as (qa & Hqa & Ha).
  destruct (optsQuestions_asked o (defaults params) p Hco Hko) as (qo & Hqo & Ho).
  exists qa, qo. split; [done|]. split; [done|].
  assert (HinA : ∀ ansA, prompt qa = Ok ansA →
                         Forall (fun k => k ∈ keys a) (keys ansA)).
  { intros ansA HA. apply (Forall_impl _ _ _ (prompt_keys qa ansA HA)).
    intros k Hk. by apply Ha. }
  assert (HinO : ∀ ansO, prompt qo = Ok ansO →
                         Forall (fun k => k ∈ keys o) (keys ansO)).
  { intros ansO HO. apply (Forall_impl _ _ _ (prompt_keys qo ansO HO)).
    intros k Hk. by apply Ho. }
  split.
  - unfold promptIfNeeded. fold a o p. rewrite Hqa, Hqo. simpl.
    rewrite !answersFor_silent by done. simpl.
    by rewrite !normalized_noNormalize.
  - intros e. unfold promptIfNeeded. fold a o p mode. rewrite Hqa, Hqo. simpl.
    destruct mode.
    + destruct (prompt qa) as [ansA|eA] eqn:HA.
      * rewrite (answersFor_round a qa p ansA) by auto. simpl.
        destruct (prompt qo) as [ansO|eO] eqn:HO.
        -- rewrite (answersFor_round o qo p ansO) by auto. simpl.
           split; [done|]. by intros [_ [?|[_ ?]]].
        -- unfold answersFor. rewrite HO. simpl. split.
           ++ intros [= <-]. split; [done|]. right. split; [by eexists | done].
           ++ intros [_ [?|[_ ?]]]; [done | congruence].
      * unfold answersFor at 1. rewrite HA. simpl. split.
        -- intros [= <-]. split; [done|]. by left.
        -- intros [_ [?|[[ansA ?] _]]]; [congruence | done].
    + rewrite !answersFor_silent by done. simpl.
      split; [done|]. by intros [? _].
Qed.

End ResolverRejections.

Lemma X17_witness_unlink :
  Prompt.promptIfNeeded Prompt.closedInput Prompt.initial
    (Prompt.unlinkParams (VArr []) ["lib"]) (Some false)
  = Ok [("dependencies", VArr [])].
Proof.
  destruct (X17_covered_call_fails_only_with_its_rounds Prompt.closedInput
              (fun questions answers H => ltac:(discriminate H))
              Prompt.initial (Prompt.unlinkParams (VArr []) ["lib"])
              (Some false)) as (qa & qo & _ & _ & Hsilent & _).
  - repeat constructor. apply not_elem_of_nil.
  - constructor.
  - apply Forall_cons. split; [vm_compute; by eexists | constructor].
  - apply Forall_cons. split; [by vm_compute | constructor].
  - apply Forall_cons. split; [by vm_compute | constructor].
  - exact Hsilent.
Defined.

(** ** The [unlink] command *)

Section UnlinkFacts.

Import Prompt Asking UnlinkCommand.

Variable prompt : list Question -> Result Obj.
Variable getLinkedDependencies : list string.
Variable unlink : Obj -> Result unit.
Variable tryAction : Obj -> Result unit.

Abbreviation action := (action prompt getLinkedDependencies unlink tryAction).

Local Arguments entry : simpl never.
Local Arguments setCommandProps : simpl never.

Implicit Types (st : ModuleState) (dependencies answer : Value) (options : Obj).

Lemma entry_setCommandProps depNames :
  entry (Some (setCommandProps depNames)) "dependencies"
  = Some {| qs_name := None;
            qs_type := VStr "checkbox";
            qs_message := VStr "Select the dependencies you want to unlink";
            qs_choices := VArr (map VStr depNames);
            qs_default := VUndefined;
            qs_normalize := None |}.
Proof. unfold setCommandProps, entry. apply lookup_singleton_eq. Qed.

Lemma covers_setCommandProps depNames :
  covers (Some (setCommandProps depNames)) ["dependencies"].
Proof.
  apply Forall_cons. split; [|constructor]. rewrite entry_setCommandProps. by eexists.
Qed.

Lemma askedByKey_setCommandProps depNames :
  askedByKey (Some (setCommandProps depNames)) ["dependencies"].
Proof.
  apply Forall_cons. split; [|constructor]. by rewrite entry_setCommandProps.
Qed.

Lemma normalizeOf_setCommandProps depNames v :
  normalizeOf (Some (setCommandProps depNames)) "dependencies" v = v.
Proof. unfold normalizeOf. by rewrite entry_setCommandProps. Qed.

Lemma wf_dependencies dependencies : wf [("dependencies", dependencies)].
Proof. repeat constructor. apply not_elem_of_nil. Qed.

Lemma promptFor_setCommandProps depNames :
  promptFor "dependencies" None (Some (setCommandProps depNames))
  = Ok (dependenciesQuestion depNames).
Proof.
  unfold promptFor. by rewrite (prop_read_entry _ _ _ (entry_setCommandProps depNames)).
Qed.

Lemma argsToAsk_setCommandProps dependencies depNames :
  argsToAsk [("dependencies", dependencies)] (Some (setCommandProps depNames))
  = if isEmpty dependencies && negb (isEmpty (VArr (map VStr depNames)))
    then ["dependencies"] else [].
Proof.
  unfold argsToAsk, offers. simpl. rewrite entry_setCommandProps. simpl.
  assert (is_undefined dependencies || isEmpty dependencies = isEmpty dependencies)
    as -> by by destruct dependencies.
  by destruct (isEmpty dependencies), depNames.
Qed.

Lemma argsQuestions_setCommandProps dependencies depNames :
  argsQuestions [("dependencies", dependencies)] None (Some (setCommandProps depNames))
  = Ok (if isEmpty dependencies && negb (isEmpty (VArr (map VStr depNames)))
        then [dependenciesQuestion depNames] else []).
Proof.
  unfold argsQuestions.
  rewrite argsPending_toAsk by apply covers_setCommandProps.
  rewrite argsToAsk_setCommandProps.
  destruct (isEmpty dependencies && _); [|done].
  change (Outcome.bind (Ok ["dependencies"]) ?k) with (k ["dependencies"]).
  by rewrite mapM_singleton, promptFor_setCommandProps.
Qed.

(** The call of [action], resolved. *)
Lemma resolved_dependencies st dependencies interactive :
  let params := {| args := Some [("dependencies", dependencies)];
                   opts := None;
                   props := Some (setCommandProps getLinkedDependencies);
                   defaults := None |} in
  let asked := isEmpty dependencies
               && negb (isEmpty (VArr (map VStr getLinkedDependencies))) in
  let mode := match interactive with
              | Some b => b
              | None => DEFAULT_INTERACTIVE_STATUS st
              end in
  (mode = false →
   promptIfNeeded prompt st params interactive = Ok [("dependencies", dependencies)])
  ∧ (mode = true → asked = false → prompt [] = Ok [] →
     promptIfNeeded prompt st params interactive = Ok [("dependencies", dependencies)])
  ∧ (∀ answer, mode = true → asked = true → prompt [] = Ok [] →
       prompt [dependenciesQuestion getLinkedDependencies]
       = Ok [("dependencies", answer)] →
       promptIfNeeded prompt st params interactive = Ok [("dependencies", answer)])
  ∧ (∀ e, mode = true → asked = true →
       prompt [dependenciesQuestion getLinkedDependencies] = Err e →
       promptIfNeeded prompt st params interactive = Err e).
Proof.
  intros params asked mode.
  pose proof (wf_dependencies dependencies) as Hwf.
  pose proof (covers_setCommandProps getLinkedDependencies) as Hcov.
  assert (Hopts : optsQuestions [] None (Some (setCommandProps getLinkedDependencies))
                  = Ok []) by done.
  unfold promptIfNeeded. fold mode.
  change (default [] (args params)) with [("dependencies", dependencies)].
  change (default [] (opts params)) with ([] : Obj).
  change (defaults params) with (@None Obj).
  change (props params) with (Some (setCommandProps getLinkedDependencies)).
  rewrite argsQuestions_setCommandProps, Hopts. fold asked.
  change (Outcome.bind (Ok ?x) ?k) with (k x). cbv beta.
  split_and!.
  - intros ->. rewrite !answersFor_silent by (done || constructor).
    simpl. by rewrite normalizeOf_setCommandProps.
  - intros -> -> Hnil.
    rewrite (answersFor_asked prompt [("dependencies", dependencies)] [] _ [])
      by (done || constructor).
    simpl.
    rewrite (answersFor_asked prompt [] [] _ []) by (done || constructor).
    simpl. by rewrite normalizeOf_setCommandProps.
  - intros answer -> -> Hnil Hanswer.
    rewrite (answersFor_asked prompt [("dependencies", dependencies)] _ _
               [("dependencies", answer)]) by (done || (repeat constructor)).
    simpl.
    rewrite (answersFor_asked prompt [] [] _ []) by (done || constructor).
    simpl. by rewrite normalizeOf_setCommandProps.
  - intros e -> -> He. unfold answersFor at 1. by rewrite He.
Qed.

(** X18.  [action] hands the dependency names to the unlink script as
    they were passed, without a question, before it pushes: when the
    call is not interactive, when names are given, and when the project
    has no linked dependency to choose from.  Called without names, the
    script is then run on the empty list. *)
Theorem X18_unlink_runs_on_the_names_passed st dependencies options :
  interactiveMode st options = false
  ∨ (prompt [] = Ok []
     ∧ (isEmpty dependencies = false ∨ getLinkedDependencies = [])) →
  action st dependencies options
  = Outcome.bind (unlink [("dependencies", dependencies)])
                 (fun _ => tryAction options).
Proof.
  intros Hcase. unfold UnlinkCommand.action.
  destruct (resolved_dependencies st dependencies
              (asInteractive (get options "interactive"))) as (Hsilent & Hgiven & _ & _).
  unfold interactiveMode in Hcase.
  destruct (match asInteractive (get options "interactive") with
            | Some b => b | None => _ end) eqn:Hmode.
  - destruct Hcase as [?|[Hnil Hwhy]]; [done|].
    rewrite Hgiven; [done|done| |done].
    destruct Hwhy as [-> | ->]; [done | simpl; apply andb_false_r].
  - by rewrite Hsilent.
Qed.

(** X19.  Called interactively without names in a project that has
    linked dependencies, [action] asks one checkbox question that offers
    the linked dependencies, runs the unlink script on the answer and
    then pushes; if the round rejects, neither script is run and the
    command fails with the error of the round. *)
Theorem X19_unlink_runs_on_the_answer st dependencies options :
  interactiveMode st options = true →
  isEmpty dependencies = true → getLinkedDependencies ≠ [] →
  argsQuestions [("dependencies", dependencies)] None
    (Some (setCommandProps getLinkedDependencies))
  = Ok [dependenciesQuestion getLinkedDependencies]
  ∧ (∀ answer,
       prompt [] = Ok [] →
       prompt [dependenciesQuestion getLinkedDependencies]
       = Ok [("dependencies", answer)] →
       action st dependencies options
       = Outcome.bind (unlink [("dependencies", answer)]) (fun _ => tryAction options))
  ∧ (∀ e, prompt [dependenciesQuestion getLinkedDependencies] = Err e →
          action st dependencies options = Err e).
Proof.
  intros Hmode Hempty Hlinked.
  assert (Hasked : isEmpty dependencies
                   && negb (isEmpty (VArr (map VStr getLinkedDependencies))) = true).
  { rewrite Hempty. by destruct getLinkedDependencies. }
  assert (Hq : argsQuestions [("dependencies", dependencies)] None
                 (Some (setCommandProps getLinkedDependencies))
               = Ok [dependenciesQuestion getLinkedDependencies]).
  { by rewrite argsQuestions_setCommandProps, Hasked. }
  split_and!; [done| |].
  - intros answer Hnil Hanswer. unfold UnlinkCommand.action.
    destruct (resolved_dependencies st dependencies
                (asInteractive (get options "interactive"))) as (_ & _ & Hanswered & _).
    by rewrite (Hanswered answer).
  - intros e He. unfold UnlinkCommand.action.
    destruct (resolved_dependencies st dependencies
                (asInteractive (get options "interactive"))) as (_ & _ & _ & Hrejected).
    by rewrite (Hrejected e).
Qed.

End UnlinkFacts.

Lemma X18_witness_names_given :
  UnlinkCommand.action Prompt.closedInput ["lib"; "other"]
    UnlinkCommand.succeed UnlinkCommand.succeed
    Prompt.initial (VArr [VStr "lib"]) [("interactive", VBool false)]
  = Ok tt.
Proof.
  exact (X18_unlink_runs_on_the_names_passed Prompt.closedInput ["lib"; "other"]
           UnlinkCommand.succeed UnlinkCommand.succeed
           Prompt.initial (VArr [VStr "lib"]) [("interactive", VBool false)]
           (or_introl eq_refl)).
Defined.

Lemma X19_witness_asked :
  UnlinkCommand.action (Prompt.answerAll (VArr [VStr "lib"])) ["lib"; "other"]
    UnlinkCommand.succeed UnlinkCommand.succeed Prompt.initial (VArr []) []
  = Ok tt.
Proof.
  refine (proj1 (proj2 (X19_unlink_runs_on_the_answer
                          (Prompt.answerAll (VArr [VStr "lib"])) ["lib"; "other"]
                          UnlinkCommand.succeed UnlinkCommand.succeed
                          Prompt.initial (VArr []) [] _ _ _))
                (VArr [VStr "lib"]) _ _); done.
Defined.
